(** * LED indications of the flashing station: [lib/gui/app/models/leds.ts]

    A shallow embedding of the module that maps the flashing state of the
    application to the RGB LED of every drive slot, and the properties of
    its specification.

    Conventions of the embedding:
    - a JavaScript [number] is a real number ([R]); [Math.floor] is
      [Int_part] and [%] on the integral result is [Z.rem] (the sign of the
      dividend), rounding of IEEE doubles is abstracted;
    - a JavaScript [Set<string>] is the list of its elements in insertion
      order, without duplicates;
    - the module-level [Map<string, RGBLed>] is a [gmap string RGBLed], its
      keys are enumerated in the order of the map rather than in insertion
      order (the order in which distinct LEDs are driven is not observed);
      an [RGBLed] records the calls its driver received, newest first;
    - the functions that mutate the LEDs are written in a state monad over
      that map. *)

From Stdlib Require Import Reals Lra ZArith.
From stdpp Require Import gmap strings list fin_maps.

#[local] Set Warnings "-clear-no-such-hyp".

Local Open Scope string_scope.
Local Open Scope list_scope.

(** ** The driver: [sys-class-rgb-led] *)

Definition Color : Type := R * R * R.
Definition AnimationFunction : Type := R -> Color.

(** The union [Color | AnimationFunction]; [Array.isArray] tells the two
    apart. *)
Inductive ColorOrAnimation : Type :=
| IsColor (c : Color)
| IsAnimation (f : AnimationFunction).

(** An LED object: the three channel names it was built from and the
    driver calls it received so far, newest first. *)
Record RGBLed : Type := mkRGBLed {
  ledsNames : string * string * string;
  received : list ColorOrAnimation
}.

Definition new_RGBLed (names : string * string * string) : RGBLed :=
  mkRGBLed names [].

Definition setStaticColor (c : Color) (led : RGBLed) : RGBLed :=
  mkRGBLed (ledsNames led) (IsColor c :: received led).

Definition setAnimation (f : AnimationFunction) (led : RGBLed) : RGBLed :=
  mkRGBLed (ledsNames led) (IsAnimation f :: received led).

(** What the LED shows: the last call it received. *)
Definition showing (led : RGBLed) : option ColorOrAnimation :=
  head (received led).

(** ** JavaScript sets of strings, in insertion order *)

Module JSSet.

Abbreviation t := (list string).

Definition has (s : t) (x : string) : bool := bool_decide (x ∈ s).

Definition add (s : t) (x : string) : t :=
  if has s x then s else s ++ [x].

(** [new Set(iterable)] *)
Definition new (l : list string) : t := foldl add [] l.

(** [s.delete(x)] *)
Definition delete (s : t) (x : string) : t :=
  filter (λ y, y ≠ x) s.

(** [for (const d of ds) { s.delete(d); }] *)
Definition delete_each (ds : t) (s : t) : t := foldl delete s ds.

End JSSet.

(** ** The state monad of the LED registry *)

Abbreviation Leds := (gmap string RGBLed).

Definition Eff (A : Type) : Type := Leds -> A * Leds.

Definition eff_get : Eff Leds := λ leds, (leds, leds).

#[export] Instance eff_ret : MRet Eff := λ A a leds, (a, leds).
#[export] Instance eff_bind : MBind Eff :=
  λ A B k m leds, let r := m leds in k (fst r) (snd r).

(** The registry after running an effectful computation. *)
Definition exec {A} (m : Eff A) (leds : Leds) : Leds := snd (m leds).

(** ** [leds.ts] *)

(** lines 30-37: the body of the loop of [setLeds], for one path. *)
Definition setLed (colorOrAnimation : ColorOrAnimation) (path : string)
  : Eff unit :=
  λ leds,
    match leds !! path with
    | Some led =>
        match colorOrAnimation with
        | IsColor c => (tt, <[path := setStaticColor c led]> leds)
        | IsAnimation f => (tt, <[path := setAnimation f led]> leds)
        end
    | None => (tt, leds)
    end.

(** lines 25-39: the loop over the set. *)
Fixpoint setLeds (drivesPaths : JSSet.t) (colorOrAnimation : ColorOrAnimation)
  : Eff unit :=
  match drivesPaths with
  | [] => mret tt
  | path :: rest =>
      setLed colorOrAnimation path;; setLeds rest colorOrAnimation
  end.

(** lines 41-45 *)
Definition red : Color := (1, 0, 0)%R.
Definition green : Color := (0, 1, 0)%R.
Definition blue : Color := (0, 0, 1)%R.
Definition white : Color := (1, 1, 1)%R.
Definition black : Color := (0, 0, 0)%R.

(** [Math.floor] and [%] on an integral dividend. *)
Definition Math_floor (x : R) : Z := Int_part x.
Definition js_rem (a b : Z) : Z := Z.rem a b.

(** lines 47-60 *)
Definition breatheBlue (t : R) : Color :=
  let intensity := ((1 + sin (t / 1000)) / 2)%R in
  (0, 0, intensity)%R.

Definition blinkGreen (t : R) : Color :=
  let intensity := IZR (js_rem (Math_floor (t / 1000)) 2) in
  (0, intensity, 0)%R.

Definition blinkPurple (t : R) : Color :=
  let intensity := IZR (js_rem (Math_floor (t / 1000)) 2) in
  (intensity / 2, 0, intensity)%R.

Inductive Step : Type := main | flashing | verifying | finish.

(** What one call of [updateLeds] computes besides driving the LEDs: the
    set built for the source slot at line 108 or 111 (empty when neither
    branch runs) and the four sets logged at line 114. *)
Record Categories : Type := mkCategories {
  source : JSSet.t;
  unplugged : JSSet.t;
  plugged : JSSet.t;
  selectedOk : JSSet.t;
  selectedFailed : JSSet.t
}.

(** [leds.keys()]: the registered paths, each once. *)
Definition keys (leds : Leds) : list string := elements (dom leds).

(** lines 77-137 *)
Definition updateLeds (step : Step) (sourceDrivePath : option string)
    (availableDrives selectedDrives failedDrives : list string)
  : Eff Categories :=
  leds ← eff_get;
  let unplugged := JSSet.new (keys leds) in
  let plugged := JSSet.new availableDrives in
  let selectedOk := JSSet.new selectedDrives in
  let selectedFailed := JSSet.new failedDrives in
  (* Remove selected devices from plugged set *)
  let plugged := JSSet.delete_each selectedOk plugged in
  (* Remove plugged devices from unplugged set *)
  let unplugged := JSSet.delete_each plugged unplugged in
  (* Remove failed devices from selected set *)
  let selectedOk := JSSet.delete_each selectedFailed selectedOk in
  (* Handle source slot *)
  '(source, unplugged, plugged) ←
    match sourceDrivePath with
    | Some sourceDrivePath =>
        if JSSet.has unplugged sourceDrivePath then
          let unplugged := JSSet.delete unplugged sourceDrivePath in
          let source := JSSet.new [sourceDrivePath] in
          setLeds source (IsAnimation breatheBlue);;
          mret (source, unplugged, plugged)
        else if JSSet.has plugged sourceDrivePath then
          let plugged := JSSet.delete plugged sourceDrivePath in
          let source := JSSet.new [sourceDrivePath] in
          setLeds source (IsColor blue);;
          mret (source, unplugged, plugged)
        else mret ([], unplugged, plugged)
    | None => mret ([], unplugged, plugged)
    end;
  match step with
  | main =>
      setLeds unplugged (IsColor black);;
      setLeds plugged (IsColor black);;
      setLeds selectedOk (IsColor white);;
      setLeds selectedFailed (IsColor white)
  | flashing =>
      setLeds unplugged (IsColor black);;
      setLeds plugged (IsColor black);;
      setLeds selectedOk (IsAnimation blinkGreen);;
      setLeds selectedFailed (IsColor red)
  | verifying =>
      setLeds unplugged (IsColor black);;
      setLeds plugged (IsColor black);;
      setLeds selectedOk (IsAnimation blinkPurple);;
      setLeds selectedFailed (IsColor red)
  | finish =>
      setLeds unplugged (IsColor black);;
      setLeds plugged (IsColor black);;
      setLeds selectedOk (IsColor green);;
      setLeds selectedFailed (IsColor red)
  end;;
  mret (mkCategories source unplugged plugged selectedOk selectedFailed).

(** The classification and the registry after one call. *)
Definition categories (leds : Leds) step src avail sel failed : Categories :=
  fst (updateLeds step src avail sel failed leds).

Definition ledsAfter (leds : Leds) step src avail sel failed : Leds :=
  exec (updateLeds step src avail sel failed) leds.

(** What the LED of a path shows, if the path has one and it was ever set. *)
Definition indication (leds : Leds) (path : string)
  : option ColorOrAnimation :=
  led ← leds !! path; showing led.

(** ** The state observer of [init] (lines 139-195) *)

(** JavaScript truthiness of an optional string: [undefined] and the empty
    string are falsy. *)
Definition truthy (o : option string) : bool :=
  match o with
  | Some EmptyString | None => false
  | Some _ => true
  end.

(** [array.filter(f)], the callback receiving the element and its index. *)
Fixpoint filter_from {A} (f : A -> nat -> bool) (i : nat) (l : list A)
  : list A :=
  match l with
  | [] => []
  | x :: l' =>
      if f x i then x :: filter_from f (S i) l' else filter_from f (S i) l'
  end.

Definition js_filter {A} (f : A -> nat -> bool) (l : list A) : list A :=
  filter_from f 0 l.

Section Observer.

(** The properties of a drive of the state other than the two of
    [DeviceFromState]; [isSourceDrive], of [shared/drive-constraints],
    reads them. As a callback of [filter] it receives the drive and its
    index. *)
Variable DriveProperties : Type.

Record DeviceFromState : Type := mkDevice {
  devicePath : option string;
  device : string;
  properties : DriveProperties
}.

Variable isSourceDrive : DeviceFromState -> nat -> bool.

Record FlashError : Type := mkFlashError { error_device : string }.
Record Results : Type := mkResults { errors : option (list FlashError) }.
Record FlashResults : Type := mkFlashResults { results : option Results }.

(** The fields of [state.toJS()] that the observer reads;
    [flashState_flashing] is [s.flashState.flashing], the number of
    devices being written, and [selection_devices] is
    [s.selection.devices]. *)
Record State : Type := mkState {
  isFlashing : bool;
  flashState_flashing : Z;
  lastAverageFlashingSpeed : option R;
  availableDrives : list DeviceFromState;
  selection_devices : list string;
  flashResults : option FlashResults
}.

(** The arguments the observer passes to [updateLeds]. *)
Record UpdateLedsArguments : Type := mkArguments {
  arg_step : Step;
  arg_sourceDrivePath : option string;
  arg_availableDrivesPaths : list string;
  arg_selectedDrivesPaths : list string;
  arg_failedDrivesPaths : list string
}.

(** lines 161-166 *)
Definition deriveStep (s : State) : Step :=
  if isFlashing s then
    if (flashState_flashing s >? 0)%Z then flashing else verifying
  else
    match lastAverageFlashingSpeed s with
    | None => main
    | Some _ => finish
    end.

(** [drives.map(d => d.devicePath)] on drives that passed the filter of
    line 168: every one of them has a path. *)
Definition devicePaths (drives : list DeviceFromState) : list string :=
  omap devicePath drives.

(** lines 176-180 *)
Definition getDrivesPaths (availableDrives : list DeviceFromState)
    (drives : list string) : list string :=
  devicePaths
    (filter (λ d, device d ∈ drives) availableDrives).

(** lines 183-186 *)
Definition failedDrives (s : State) : list string :=
  let errors :=
    match flashResults s with
    | Some flashResults =>
        match results flashResults with
        | Some results => errors results
        | None => None
        end
    | None => None
    end in
  match errors with
  | Some errors => map error_device errors
  | None => []
  end.

(** lines 160-194, up to the call of [updateLeds] *)
Definition derive (s : State) : UpdateLedsArguments :=
  let step := deriveStep s in
  let availableDrives :=
    filter (λ d, truthy (devicePath d) = true) (availableDrives s) in
  let sourceDrivePath :=
    match head (js_filter isSourceDrive availableDrives) with
    | Some d => devicePath d
    | None => None
    end in
  let availableDrivesPaths := devicePaths availableDrives in
  let selectedDrivesPaths :=
    getDrivesPaths availableDrives (selection_devices s) in
  let failedDrivesPaths :=
    getDrivesPaths availableDrives (failedDrives s) in
  mkArguments step sourceDrivePath availableDrivesPaths
    selectedDrivesPaths failedDrivesPaths.

(** The callback given to [observe]. *)
Definition onState (s : State) : Eff Categories :=
  let a := derive s in
  updateLeds (arg_step a) (arg_sourceDrivePath a)
    (arg_availableDrivesPaths a) (arg_selectedDrivesPaths a)
    (arg_failedDrivesPaths a).

End Observer.

(** lines 154-158: the registry built from the [ledsMapping] setting. *)
Definition register (leds : Leds) (entry : string * (string * string * string))
  : Leds :=
  <["/dev/disk/by-path/" +:+ entry.1 := new_RGBLed entry.2]> leds.

Definition init_leds (ledsMapping : list (string * (string * string * string)))
  : Leds :=
  foldl register ∅ ledsMapping.

(** * The vocabulary of the properties *)

(** The LED after it received the calls [cs], the newest first. *)
Definition record_calls (cs : list ColorOrAnimation) (led : RGBLed) : RGBLed :=
  mkRGBLed (ledsNames led) (cs ++ received led).

(** The call made for a path by [setLeds s c]: one if the path is in [s]. *)
Definition when (P : Prop) `{Decision P} (c : ColorOrAnimation)
  : list ColorOrAnimation :=
  if decide P then [c] else [].

(** The five categories of the specification and the sets that hold them. *)
Inductive Category : Type :=
| Source | Unplugged | Plugged | SelectedOk | SelectedFailed.

Definition members (c : Category) (cats : Categories) : JSSet.t :=
  match c with
  | Source => source cats
  | Unplugged => unplugged cats
  | Plugged => plugged cats
  | SelectedOk => selectedOk cats
  | SelectedFailed => selectedFailed cats
  end.

Definition all_categories : list Category :=
  [Source; Unplugged; Plugged; SelectedOk; SelectedFailed].

(** The categories that hold a path. *)
Definition categories_of (cats : Categories) (p : string) : list Category :=
  filter (λ c, p ∈ members c cats) all_categories.

(** Lines 84-113 without the driver calls: the sets as a function of the
    registered paths and the arguments. *)
Definition classify (registered : list string) (src : option string)
    (avail sel failed : list string) : Categories :=
  let plugged0 := JSSet.delete_each (JSSet.new sel) (JSSet.new avail) in
  let unplugged0 := JSSet.delete_each plugged0 (JSSet.new registered) in
  let selectedOk :=
    JSSet.delete_each (JSSet.new failed) (JSSet.new sel) in
  let selectedFailed := JSSet.new failed in
  match src with
  | Some s =>
      if JSSet.has unplugged0 s then
        mkCategories (JSSet.new [s]) (JSSet.delete unplugged0 s) plugged0
          selectedOk selectedFailed
      else if JSSet.has plugged0 s then
        mkCategories (JSSet.new [s]) unplugged0 (JSSet.delete plugged0 s)
          selectedOk selectedFailed
      else mkCategories [] unplugged0 plugged0 selectedOk selectedFailed
  | None => mkCategories [] unplugged0 plugged0 selectedOk selectedFailed
  end.

(** The table of the specification, for the four sets that are driven by
    the step. The source slot has no row in the table; [indicationFor]
    below gives its indication and never reads the entry it has here. *)
Definition stepTable (step : Step) (c : Category) : ColorOrAnimation :=
  match c, step with
  | (Unplugged | Plugged), _ => IsColor black
  | SelectedOk, main => IsColor white
  | SelectedOk, flashing => IsAnimation blinkGreen
  | SelectedOk, verifying => IsAnimation blinkPurple
  | SelectedOk, finish => IsColor green
  | SelectedFailed, main => IsColor white
  | SelectedFailed, _ => IsColor red
  | Source, _ => IsColor blue
  end.

(** What [updateLeds] sends to the LED of [p] for a category that holds
    [p]. The source slot is solid blue when line 109 finds it in [plugged]
    (available and not selected) and breathes otherwise. *)
Definition indicationFor (step : Step) (avail sel : list string) (p : string)
    (c : Category) : ColorOrAnimation :=
  match c with
  | Source =>
      if decide (p ∈ avail ∧ p ∉ sel) then IsColor blue
      else IsAnimation breatheBlue
  | _ => stepTable step c
  end.

(** The calls the LED of [p] receives in one update, newest first: one for
    each category holding [p], made in the order source, unplugged,
    plugged, selectedOk, selectedFailed. *)
Definition calls_of (step : Step) (avail sel : list string)
    (cats : Categories) (p : string) : list ColorOrAnimation :=
  indicationFor step avail sel p <$> reverse (categories_of cats p).

(** The call of line 108 or of line 111. *)
Definition sourceCall (registered : list string) (src : option string)
    (avail sel : list string) : ColorOrAnimation :=
  let plugged0 := JSSet.delete_each (JSSet.new sel) (JSSet.new avail) in
  let unplugged0 := JSSet.delete_each plugged0 (JSSet.new registered) in
  match src with
  | Some s =>
      if JSSet.has unplugged0 s then IsAnimation breatheBlue else IsColor blue
  | None => IsColor blue
  end.

Definition pA : string := "/dev/disk/by-path/A".
Definition pB : string := "/dev/disk/by-path/B".
Definition pC : string := "/dev/disk/by-path/C".

Definition ledsABC : Leds :=
  init_leds [("A", ("led1_r", "led1_g", "led1_b"));
             ("B", ("led2_r", "led2_g", "led2_b"));
             ("C", ("led3_r", "led3_g", "led3_b"))].

(** The number of categories, among [cs], that hold a path. *)
Definition held_by (cs : list Category) (cats : Categories) (p : string) : nat :=
  length (filter (λ c, p ∈ members c cats) cs).

(** The intensity of the blinking animations as the specification writes
    it, with the mathematical [mod]. *)
Definition toggle (t : R) : Z := (Int_part (t / 1000)%R mod 2)%Z.

Definition pX : string := "/dev/disk/by-path/X".

(** A state of the examples: two drives, the second without a resolved
    path, a selection, and results whose list of errors is missing. *)
Definition no_source (d : DeviceFromState unit) (i : nat) : bool := false.

Definition state_verifying : State unit :=
  mkState unit true 0 None
    [mkDevice unit (Some pA) "/dev/sda" tt; mkDevice unit None "/dev/sdb" tt]
    ["/dev/sda"; "/dev/sdb"]
    (Some (mkFlashResults (Some (mkResults None)))).

(** ** The vocabulary of the further properties *)

(** What the LED of a registered path shows after [updateLeds], read off
    lines 105-136 as a function of the arguments: the last set driven that
    holds the path decides. *)
Definition finalIndication (step : Step) (src : option string)
    (avail sel failed : list string) (p : string) : ColorOrAnimation :=
  if decide (p ∈ failed) then
    match step with
    | main => IsColor white
    | flashing | verifying | finish => IsColor red
    end
  else if decide (p ∈ sel) then
    match step with
    | main => IsColor white
    | flashing => IsAnimation blinkGreen
    | verifying => IsAnimation blinkPurple
    | finish => IsColor green
    end
  else if decide (src = Some p) then
    if decide (p ∈ avail) then IsColor blue else IsAnimation breatheBlue
  else IsColor black.

(** A [ledsMapping] setting of the examples. *)
Definition mappingAB : list (string * (string * string * string)) :=
  [("A", ("led1_r", "led1_g", "led1_b")); ("B", ("led2_r", "led2_g", "led2_b"))].

(** A state of the examples: the first drive is selected and is reported
    as the source, the second has no resolved path, the third has an empty
    one, the fourth failed. *)
Definition first_is_source (d : DeviceFromState unit) (i : nat) : bool :=
  Nat.eqb i 0.

Definition state_flashing : State unit :=
  mkState unit true 2 None
    [mkDevice unit (Some pA) "/dev/sda" tt;
     mkDevice unit None "/dev/sdb" tt;
     mkDevice unit (Some "") "/dev/sdc" tt;
     mkDevice unit (Some pB) "/dev/sdd" tt]
    ["/dev/sda"; "/dev/sdb"; "/dev/sdz"]
    (Some (mkFlashResults
             (Some (mkResults (Some [mkFlashError "/dev/sdd";
                                     mkFlashError "/dev/sdc"]))))).

(** A state of the examples after a run: the first drive is the source,
    the second is selected. *)
Definition state_done : State unit :=
  mkState unit false 0 (Some 12%R)
    [mkDevice unit (Some pA) "/dev/sda" tt; mkDevice unit (Some pB) "/dev/sdd" tt]
    ["/dev/sdd"]
    None.

(** * Properties *)

(** ** Sets *)

Module JSSetFacts.
Import JSSet.

Lemma has_true s x : has s x = true ↔ x ∈ s.
Proof. unfold has. by rewrite bool_decide_eq_true. Qed.

Lemma has_false s x : has s x = false ↔ x ∉ s.
Proof. unfold has. by rewrite bool_decide_eq_false. Qed.

Lemma elem_of_add s y x : x ∈ add s y ↔ x ∈ s ∨ x = y.
Proof.
  unfold add. destruct (has s y) eqn:E.
  - apply has_true in E. split; [by left|]. by intros [?| ->].
  - rewrite elem_of_app, list_elem_of_singleton. tauto.
Qed.

Lemma NoDup_add s y : NoDup s → NoDup (add s y).
Proof.
  intros Hs. unfold add. destruct (has s y) eqn:E; [done|].
  apply has_false in E. apply NoDup_app. split_and!; [done| |].
  - intros x Hx ->%list_elem_of_singleton. by apply E.
  - apply NoDup_singleton.
Qed.

Lemma elem_of_foldl_add l acc x : x ∈ foldl add acc l ↔ x ∈ acc ∨ x ∈ l.
Proof.
  revert acc. induction l as [|y l IH]; intros acc; simpl.
  - rewrite elem_of_nil. tauto.
  - rewrite IH, elem_of_add, elem_of_cons. tauto.
Qed.

Lemma NoDup_foldl_add l acc : NoDup acc → NoDup (foldl add acc l).
Proof.
  revert acc. induction l as [|y l IH]; intros acc Hacc; simpl; [done|].
  by apply IH, NoDup_add.
Qed.

Lemma elem_of_new l x : x ∈ new l ↔ x ∈ l.
Proof. unfold new. rewrite elem_of_foldl_add, elem_of_nil. tauto. Qed.

Lemma NoDup_new l : NoDup (new l).
Proof. apply NoDup_foldl_add, NoDup_nil_2. Qed.

Lemma elem_of_delete s y x : x ∈ delete s y ↔ x ∈ s ∧ x ≠ y.
Proof. unfold delete. rewrite list_elem_of_filter. tauto. Qed.

Lemma NoDup_delete s y : NoDup s → NoDup (delete s y).
Proof. apply NoDup_filter. Qed.

Lemma elem_of_delete_each ds s x : x ∈ delete_each ds s ↔ x ∈ s ∧ x ∉ ds.
Proof.
  unfold delete_each. revert s. induction ds as [|d ds IH]; intros s; simpl.
  - rewrite elem_of_nil. tauto.
  - rewrite IH, elem_of_delete, not_elem_of_cons. tauto.
Qed.

Lemma NoDup_delete_each ds s : NoDup s → NoDup (delete_each ds s).
Proof.
  unfold delete_each. revert s. induction ds as [|d ds IH]; intros s Hs; simpl.
  - done.
  - by apply IH, NoDup_delete.
Qed.

End JSSetFacts.

Lemma elem_of_keys (leds : Leds) p : p ∈ keys leds ↔ is_Some (leds !! p).
Proof. unfold keys. by rewrite elem_of_elements, elem_of_dom. Qed.

Lemma NoDup_keys (leds : Leds) : NoDup (keys leds).
Proof. unfold keys. apply NoDup_elements. Qed.

(** ** Driving the LEDs *)

Lemma record_calls_nil led : record_calls [] led = led.
Proof. by destruct led. Qed.

Lemma record_calls_app cs1 cs2 led :
  record_calls cs1 (record_calls cs2 led) = record_calls (cs1 ++ cs2) led.
Proof. unfold record_calls; simpl. by rewrite (assoc_L (++)). Qed.

Lemma record_calls_fmap cs1 cs2 (o : option RGBLed) :
  record_calls cs1 <$> (record_calls cs2 <$> o) = record_calls (cs1 ++ cs2) <$> o.
Proof. destruct o; simpl; [|done]. by rewrite record_calls_app. Qed.

Lemma setLed_lookup c p leds q :
  exec (setLed c p) leds !! q
  = record_calls (when (q = p) c) <$> leds !! q.
Proof.
  unfold exec, setLed, when. destruct (leds !! p) as [led|] eqn:E.
  - case_decide as Hq.
    + subst q. rewrite E. destruct c; simpl; rewrite lookup_insert_eq; reflexivity.
    + destruct c; simpl; rewrite lookup_insert_ne by done;
        destruct (leds !! q); simpl; by rewrite ?record_calls_nil.
  - simpl. case_decide as Hq.
    + subst q. by rewrite E.
    + destruct (leds !! q); simpl; by rewrite ?record_calls_nil.
Qed.

Lemma setLeds_lookup s c leds q :
  NoDup s →
  exec (setLeds s c) leds !! q
  = record_calls (when (q ∈ s) c) <$> leds !! q.
Proof.
  intros Hs. revert leds. induction Hs as [|p s Hp Hs IH]; intros leds.
  - change (exec (setLeds [] c) leds) with leds.
    unfold when. rewrite decide_False by apply not_elem_of_nil.
    destruct (leds !! q); simpl; by rewrite ?record_calls_nil.
  - change (exec (setLeds (p :: s) c) leds)
      with (exec (setLeds s c) (exec (setLed c p) leds)).
    rewrite IH, setLed_lookup, record_calls_fmap. f_equal. f_equal.
    unfold when. repeat case_decide; set_solver.
Qed.

Lemma setLeds_dom s c leds : dom (exec (setLeds s c) leds) = dom leds.
Proof.
  revert leds. induction s as [|p s IH]; intros leds; [done|].
  change (exec (setLeds (p :: s) c) leds)
    with (exec (setLeds s c) (exec (setLed c p) leds)).
  rewrite IH. unfold exec, setLed.
  destruct (leds !! p) as [led|] eqn:E; [|done].
  assert (p ∈ dom leds) by (apply elem_of_dom; eauto).
  destruct c; simpl; rewrite dom_insert_L; set_solver.
Qed.

(** ** The classification *)

Lemma categories_classify leds step src avail sel failed :
  categories leds step src avail sel failed
  = classify (keys leds) src avail sel failed.
Proof.
  unfold categories, classify, updateLeds.
  cbv beta iota zeta delta [mbind eff_bind eff_get mret eff_ret fst snd].
  destruct src as [s|].
  - destruct (JSSet.has _ s); [|destruct (JSSet.has _ s)]; destruct step; reflexivity.
  - destruct step; reflexivity.
Qed.

Section Classification.
Import JSSetFacts.

Variable leds : Leds.
Variable src : option string.
Variables avail sel failed : list string.

Local Abbreviation cats := (classify (keys leds) src avail sel failed).

(** Plugged and not selected: what lines 90-92 leave in [plugged]. *)
Local Abbreviation idle p := (p ∈ avail ∧ p ∉ sel).

Lemma elem_of_selectedFailed p : p ∈ selectedFailed cats ↔ p ∈ failed.
Proof.
  unfold classify. repeat case_match; simpl; apply elem_of_new.
Qed.

Lemma elem_of_selectedOk p :
  p ∈ selectedOk cats ↔ p ∈ sel ∧ p ∉ failed.
Proof.
  unfold classify. repeat case_match; simpl;
    rewrite elem_of_delete_each, !elem_of_new; tauto.
Qed.

Lemma elem_of_plugged p :
  p ∈ plugged cats ↔ idle p ∧ src ≠ Some p.
Proof.
  unfold classify.
  repeat case_match; simpl;
    rewrite ?elem_of_delete, elem_of_delete_each, !elem_of_new;
    repeat match goal with
      | H : JSSet.has _ _ = true |- _ =>
          apply has_true in H;
          rewrite ?elem_of_delete_each, ?elem_of_new in H
      | H : JSSet.has _ _ = false |- _ =>
          apply has_false in H;
          rewrite ?elem_of_delete_each, ?elem_of_new in H
      end; naive_solver.
Qed.

Lemma elem_of_unplugged p :
  p ∈ unplugged cats ↔ is_Some (leds !! p) ∧ ¬ idle p ∧ src ≠ Some p.
Proof.
  unfold classify. rewrite <- elem_of_keys.
  repeat case_match; simpl;
    rewrite ?elem_of_delete, !elem_of_delete_each, !elem_of_new;
    repeat match goal with
      | H : JSSet.has _ _ = true |- _ =>
          apply has_true in H;
          rewrite ?elem_of_delete_each, ?elem_of_new in H
      | H : JSSet.has _ _ = false |- _ =>
          apply has_false in H;
          rewrite ?elem_of_delete_each, ?elem_of_new in H
      end; naive_solver.
Qed.

Lemma elem_of_source p :
  p ∈ source cats ↔ src = Some p ∧ (is_Some (leds !! p) ∨ idle p).
Proof.
  unfold classify. rewrite <- elem_of_keys.
  repeat case_match; simpl; rewrite ?elem_of_new, ?list_elem_of_singleton;
    repeat match goal with
      | H : JSSet.has _ _ = true |- _ =>
          apply has_true in H;
          rewrite ?elem_of_delete_each, ?elem_of_new in H
      | H : JSSet.has _ _ = false |- _ =>
          apply has_false in H;
          rewrite ?elem_of_delete_each, ?elem_of_new in H
      end.
  all: try (rewrite elem_of_nil).
  all: destruct (decide (p ∈ avail)), (decide (p ∈ sel)); naive_solver.
Qed.

Lemma NoDup_members c : NoDup (members c cats).
Proof.
  unfold classify.
  destruct c; repeat case_match; simpl;
    auto using NoDup_new, NoDup_delete, NoDup_delete_each, NoDup_nil_2.
Qed.

End Classification.

(** ** The calls one update makes *)

Lemma calls_of_when step avail sel cats p :
  calls_of step avail sel cats p
  = when (p ∈ selectedFailed cats) (stepTable step SelectedFailed)
    ++ when (p ∈ selectedOk cats) (stepTable step SelectedOk)
    ++ when (p ∈ plugged cats) (stepTable step Plugged)
    ++ when (p ∈ unplugged cats) (stepTable step Unplugged)
    ++ when (p ∈ source cats) (indicationFor step avail sel p Source).
Proof.
  unfold calls_of, categories_of, all_categories, when.
  rewrite !filter_cons, filter_nil. simpl members.
  repeat case_decide; reflexivity.
Qed.

Lemma ledsAfter_exec leds step src avail sel failed :
  let cats := classify (keys leds) src avail sel failed in
  ledsAfter leds step src avail sel failed
  = exec (setLeds (selectedFailed cats) (stepTable step SelectedFailed))
      (exec (setLeds (selectedOk cats) (stepTable step SelectedOk))
         (exec (setLeds (plugged cats) (stepTable step Plugged))
            (exec (setLeds (unplugged cats) (stepTable step Unplugged))
               (exec (setLeds (source cats)
                        (sourceCall (keys leds) src avail sel)) leds)))).
Proof.
  unfold ledsAfter, exec, updateLeds, classify, sourceCall.
  cbv beta zeta delta [mbind eff_bind eff_get mret eff_ret]. cbn [fst snd].
  set (pl := JSSet.delete_each (JSSet.new sel) (JSSet.new avail)).
  set (un := JSSet.delete_each pl (JSSet.new (keys leds))).
  destruct src as [s|].
  - destruct (JSSet.has un s), (JSSet.has pl s), step; reflexivity.
  - destruct step; reflexivity.
Qed.

Lemma sourceCall_indicationFor leds step src avail sel failed p :
  p ∈ source (classify (keys leds) src avail sel failed) →
  sourceCall (keys leds) src avail sel = indicationFor step avail sel p Source.
Proof.
  intros Hp. pose proof Hp as [-> Hs]%elem_of_source.
  unfold sourceCall, indicationFor.
  destruct (JSSet.has _ p) eqn:E.
  - apply JSSetFacts.has_true in E.
    rewrite !JSSetFacts.elem_of_delete_each, !JSSetFacts.elem_of_new in E.
    rewrite decide_False; [done|]. tauto.
  - apply JSSetFacts.has_false in E.
    rewrite !JSSetFacts.elem_of_delete_each, !JSSetFacts.elem_of_new,
      elem_of_keys in E.
    rewrite decide_True; [done|].
    destruct (decide (p ∈ avail)), (decide (p ∈ sel)); naive_solver.
Qed.

Lemma ledsAfter_lookup leds step src avail sel failed p :
  ledsAfter leds step src avail sel failed !! p
  = record_calls
      (calls_of step avail sel (categories leds step src avail sel failed) p)
    <$> leds !! p.
Proof.
  rewrite calls_of_when, categories_classify, ledsAfter_exec.
  pose proof (NoDup_members leds src avail sel failed) as Hnd.
  rewrite !setLeds_lookup
    by first [ apply (Hnd Source) | apply (Hnd Unplugged) | apply (Hnd Plugged)
             | apply (Hnd SelectedOk) | apply (Hnd SelectedFailed) ].
  rewrite !record_calls_fmap, <- !(assoc_L (++)).
  replace (when (p ∈ source _) (sourceCall _ _ _ _))
    with (when (p ∈ source (classify (keys leds) src avail sel failed))
            (indicationFor step avail sel p Source)); [done|].
  unfold when. case_decide as Hp; [|done].
  by rewrite (sourceCall_indicationFor _ step _ _ _ failed p).
Qed.

Lemma ledsAfter_dom leds step src avail sel failed :
  dom (ledsAfter leds step src avail sel failed) = dom leds.
Proof. rewrite ledsAfter_exec. by rewrite !setLeds_dom. Qed.

(** ** What an LED shows after an update *)

Section AfterUpdate.

Variable leds : Leds.
Variable step : Step.
Variable src : option string.
Variables avail sel failed : list string.

Local Abbreviation cats := (categories leds step src avail sel failed).
Local Abbreviation after := (ledsAfter leds step src avail sel failed).

Lemma categories_of_cons p :
  categories_of cats p
  = (if decide (p ∈ source cats) then [Source] else [])
    ++ (if decide (p ∈ unplugged cats) then [Unplugged] else [])
    ++ (if decide (p ∈ plugged cats) then [Plugged] else [])
    ++ (if decide (p ∈ selectedOk cats) then [SelectedOk] else [])
    ++ (if decide (p ∈ selectedFailed cats) then [SelectedFailed] else []).
Proof.
  unfold categories_of, all_categories.
  rewrite !filter_cons, filter_nil. simpl members.
  repeat case_decide; reflexivity.
Qed.

Lemma elem_of_categories_of p c : c ∈ categories_of cats p ↔ p ∈ members c cats.
Proof.
  unfold categories_of. rewrite list_elem_of_filter.
  split; [by intros [? _]|]. intros Hp. split; [done|].
  unfold all_categories. destruct c; set_solver.
Qed.

(** A registered path is in [source], in [unplugged] or in [plugged]. *)
Lemma registered_classified p :
  is_Some (leds !! p) →
  p ∈ source cats ∨ p ∈ unplugged cats ∨ p ∈ plugged cats.
Proof.
  intros Hp. rewrite categories_classify.
  rewrite elem_of_source, elem_of_unplugged, elem_of_plugged.
  destruct (decide (src = Some p)), (decide (p ∈ avail)), (decide (p ∈ sel));
    naive_solver.
Qed.

Lemma categories_of_nonempty p :
  is_Some (leds !! p) → categories_of cats p ≠ [].
Proof.
  intros Hp Hnil.
  assert (∀ c, p ∉ members c cats) as Hno.
  { intros c Hc%elem_of_categories_of. rewrite Hnil in Hc. by apply elem_of_nil in Hc. }
  destruct (registered_classified p Hp) as [H|[H|H]].
  - by apply (Hno Source).
  - by apply (Hno Unplugged).
  - by apply (Hno Plugged).
Qed.

Lemma after_lookup p led :
  leds !! p = Some led →
  after !! p
  = Some (record_calls (calls_of step avail sel cats p) led).
Proof. intros Hp. by rewrite ledsAfter_lookup, Hp. Qed.

Lemma after_unregistered p : leds !! p = None → after !! p = None.
Proof. intros Hp. by rewrite ledsAfter_lookup, Hp. Qed.

(** The LED shows the indication of the last category holding its path. *)
Lemma indication_after p :
  is_Some (leds !! p) →
  indication after p
  = indicationFor step avail sel p <$> last (categories_of cats p).
Proof.
  intros [led Hp]. unfold indication. rewrite (after_lookup p led Hp). simpl.
  unfold showing, record_calls, calls_of; simpl.
  pose proof (categories_of_nonempty p (mk_is_Some _ _ Hp)) as Hne.
  rewrite <- head_reverse.
  destruct (reverse (categories_of cats p)) as [|c l] eqn:E; [|done].
  apply (f_equal reverse) in E. rewrite reverse_involutive in E. done.
Qed.

End AfterUpdate.

(** ** A registry of three slots, for the examples *)

(** ** The partition of the registered paths *)

(** C1, as stated, fails: a registered path that is selected stays in
    [unplugged] and is in [selectedOk] as well. *)
Lemma C1_selected_path_in_two_categories :
  is_Some (ledsABC !! pA)
  ∧ categories_of (categories ledsABC main None [pA] [pA] []) pA
    = [Unplugged; SelectedOk].
Proof. split; [vm_compute; eauto | reflexivity]. Qed.

(** C1, amended: on every call of [updateLeds] every registered path is in
    at least one of the five categories and in exactly one of [source],
    [unplugged] and [plugged]; [selectedOk] shares no path with
    [selectedFailed] nor with [plugged]. *)
Theorem C1_registered_paths_classified
    (leds : Leds) (step : Step) (src : option string)
    (avail sel failed : list string) (p : string) :
  is_Some (leds !! p) →
  let cats := categories leds step src avail sel failed in
  categories_of cats p ≠ []
  ∧ held_by [Source; Unplugged; Plugged] cats p = 1
  ∧ ¬ (p ∈ selectedOk cats ∧ p ∈ selectedFailed cats)
  ∧ ¬ (p ∈ selectedOk cats ∧ p ∈ plugged cats).
Proof.
  intros Hp cats. split; [by apply categories_of_nonempty|].
  subst cats. rewrite categories_classify.
  unfold held_by. rewrite !filter_cons, filter_nil. simpl members.
  rewrite elem_of_selectedOk, elem_of_selectedFailed, elem_of_plugged.
  pose proof (elem_of_source leds src avail sel failed p) as Hso.
  pose proof (elem_of_unplugged leds src avail sel failed p) as Hun.
  pose proof (elem_of_plugged leds src avail sel failed p) as Hpl.
  split_and!; [|tauto|tauto].
  destruct (decide (src = Some p)), (decide (p ∈ avail)), (decide (p ∈ sel));
    repeat case_decide; naive_solver.
Qed.

Lemma C1_registered_paths_classified_witness :
  let cats := categories ledsABC flashing (Some pA) [pA; pB] [pB] [pB] in
  is_Some (ledsABC !! pB)
  ∧ categories_of cats pB ≠ []
  ∧ held_by [Source; Unplugged; Plugged] cats pB = 1
  ∧ ¬ (pB ∈ selectedOk cats ∧ pB ∈ selectedFailed cats)
  ∧ ¬ (pB ∈ selectedOk cats ∧ pB ∈ plugged cats).
Proof.
  assert (Hreg : is_Some (ledsABC !! pB)) by (vm_compute; eauto).
  split; [exact Hreg|].
  exact (C1_registered_paths_classified
           ledsABC flashing (Some pA) [pA; pB] [pB] [pB] pB Hreg).
Defined.

(** ** Precedence between the categories *)

Lemma last_categories_of leds step src avail sel failed p :
  let cats := categories leds step src avail sel failed in
  last (categories_of cats p)
  = if decide (p ∈ selectedFailed cats) then Some SelectedFailed
    else if decide (p ∈ selectedOk cats) then Some SelectedOk
    else if decide (p ∈ plugged cats) then Some Plugged
    else if decide (p ∈ unplugged cats) then Some Unplugged
    else if decide (p ∈ source cats) then Some Source
    else None.
Proof.
  intros cats. subst cats. rewrite categories_of_cons.
  repeat case_decide; reflexivity.
Qed.

(** C2, as stated, fails: a source path that is also selected is
    classified [selectedOk], breathes although it is available, and ends
    with the indication of the step table. *)
Lemma C2_selected_source_follows_step_table :
  let cats := categories ledsABC main (Some pA) [pA] [pA] [] in
  pA ∈ selectedOk cats
  ∧ (received <$> ledsAfter ledsABC main (Some pA) [pA] [pA] [] !! pA)
    = Some [IsColor white; IsAnimation breatheBlue].
Proof. split; [|reflexivity]. vm_compute. apply list_elem_of_here. Qed.

(** C2, amended: on every call of [updateLeds] with a source path, that
    path is in neither [unplugged] nor [plugged]; it is in [selectedOk] or
    [selectedFailed] exactly when the selected and failed lists put it
    there. When it is registered and in neither list, [source] is its only
    category and, at every step, its LED ends breathing blue if the path is
    not available and solid blue if it is. *)
Theorem C2_source_slot
    (leds : Leds) (step : Step) (s : string) (avail sel failed : list string) :
  let cats := categories leds step (Some s) avail sel failed in
  let after := ledsAfter leds step (Some s) avail sel failed in
  (s ∉ unplugged cats)
  ∧ (s ∉ plugged cats)
  ∧ (s ∈ selectedOk cats ↔ s ∈ sel ∧ s ∉ failed)
  ∧ (s ∈ selectedFailed cats ↔ s ∈ failed)
  ∧ (is_Some (leds !! s) → s ∉ sel → s ∉ failed →
     categories_of cats s = [Source]
     ∧ indication after s
       = Some (if decide (s ∈ avail) then IsColor blue
               else IsAnimation breatheBlue)).
Proof.
  intros cats after.
  assert (Hun : s ∉ unplugged cats).
  { subst cats. rewrite categories_classify, elem_of_unplugged. tauto. }
  assert (Hpl : s ∉ plugged cats).
  { subst cats. rewrite categories_classify, elem_of_plugged. tauto. }
  assert (Hok : s ∈ selectedOk cats ↔ s ∈ sel ∧ s ∉ failed).
  { subst cats. by rewrite categories_classify, elem_of_selectedOk. }
  assert (Hfa : s ∈ selectedFailed cats ↔ s ∈ failed).
  { subst cats. by rewrite categories_classify, elem_of_selectedFailed. }
  split_and!; try done.
  intros Hreg Hsel Hfailed.
  assert (Hso : s ∈ source cats).
  { subst cats. rewrite categories_classify, elem_of_source. auto. }
  assert (Hcs : categories_of cats s = [Source]).
  { subst cats. rewrite categories_of_cons.
    rewrite decide_True by done. rewrite !decide_False by tauto. done. }
  split; [done|].
  subst after. rewrite indication_after by done. fold cats. rewrite Hcs. simpl.
  f_equal. repeat case_decide; tauto.
Qed.

Lemma C2_source_slot_witness :
  is_Some (ledsABC !! pA) ∧ (pA ∉ [pB]) ∧ (pA ∉ @nil string)
  ∧ indication (ledsAfter ledsABC verifying (Some pA) [pA; pB] [pB] []) pA
    = Some (IsColor blue).
Proof.
  assert (Hreg : is_Some (ledsABC !! pA)) by (vm_compute; eauto).
  assert (Hsel : pA ∉ [pB]) by compute_done.
  assert (Hfailed : pA ∉ @nil string) by apply not_elem_of_nil.
  split_and!; [exact Hreg | exact Hsel | exact Hfailed |].
  exact (proj2 (proj2 (proj2 (proj2 (proj2
    (C2_source_slot ledsABC verifying pA [pA; pB] [pB] []))))
      Hreg Hsel Hfailed)).
Defined.

(** ** The animations *)

Section Animations.
Local Open Scope R_scope.

Lemma Math_floor_unique (x : R) (z : Z) :
  IZR z <= x < IZR z + 1 → Math_floor x = z.
Proof.
  intros [Hlo Hhi]. unfold Math_floor. symmetry.
  apply Int_part_spec. lra.
Qed.

Lemma Math_floor_nonneg (x : R) : 0 <= x → (0 <= Math_floor x)%Z.
Proof.
  intros Hx. unfold Math_floor.
  destruct (base_Int_part x) as [_ Hgt].
  assert (IZR (-1) < IZR (Int_part x)) as Hlt%lt_IZR by (simpl; lra).
  lia.
Qed.

Lemma intensity_toggle (t : R) :
  0 <= t → js_rem (Math_floor (t / 1000)) 2 = toggle t.
Proof.
  intros Ht. unfold js_rem, toggle.
  apply Z.rem_mod_nonneg; [|lia].
  apply Math_floor_nonneg. lra.
Qed.

Lemma blinkGreen_500 : blinkGreen 500 = (0, 0, 0).
Proof.
  unfold blinkGreen. rewrite (Math_floor_unique _ 0) by (simpl; lra).
  reflexivity.
Qed.

Lemma blinkGreen_1500 : blinkGreen 1500 = (0, 1, 0).
Proof.
  unfold blinkGreen. rewrite (Math_floor_unique _ 1) by (simpl; lra).
  reflexivity.
Qed.

Lemma blinkPurple_1500 : blinkPurple 1500 = (1 / 2, 0, 1).
Proof.
  unfold blinkPurple. rewrite (Math_floor_unique _ 1) by (simpl; lra).
  reflexivity.
Qed.

Lemma breatheBlue_0 : breatheBlue 0 = (0, 0, 1 / 2).
Proof.
  unfold breatheBlue. replace (0 / 1000) with 0 by lra.
  rewrite sin_0. do 2 f_equal. lra.
Qed.

(** Before the origin of time the remainder of [%] is negative. *)
Lemma blinkGreen_negative : blinkGreen (-500) = (0, -1, 0).
Proof.
  unfold blinkGreen. rewrite (Math_floor_unique _ (-1)) by (simpl; lra).
  reflexivity.
Qed.

(** The three animations are three different functions. *)
Lemma blinkGreen_not_blinkPurple : blinkGreen ≠ blinkPurple.
Proof.
  intros H. apply (f_equal (λ f, f 1500)) in H.
  rewrite blinkGreen_1500, blinkPurple_1500 in H.
  injection H as H1 H2. lra.
Qed.

Lemma breatheBlue_not_blinkGreen : breatheBlue ≠ blinkGreen.
Proof.
  intros H. apply (f_equal (λ f, f 1500)) in H.
  rewrite blinkGreen_1500 in H. unfold breatheBlue in H.
  injection H as H1. lra.
Qed.

Lemma breatheBlue_not_blinkPurple : breatheBlue ≠ blinkPurple.
Proof.
  intros H. apply (f_equal (λ f, f 1500)) in H.
  rewrite blinkPurple_1500 in H. unfold breatheBlue in H.
  injection H as H1 H2. lra.
Qed.

(** C6: for every elapsed time [t] (a time that is not negative),
    [blinkGreen t] is [(0, i, 0)] and [blinkPurple t] is [(i/2, 0, i)] with
    [i = floor (t/1000) mod 2], and [breatheBlue t] is
    [(0, 0, (1 + sin (t/1000)) / 2)]; [blinkGreen] gives [(0,0,0)] at 500
    and [(0,1,0)] at 1500, [breatheBlue] gives [(0,0,0.5)] at 0. *)
Theorem C6_animation_sampling (t : R) :
  0 <= t →
  blinkGreen t = (0, IZR (toggle t), 0)
  ∧ blinkPurple t = (IZR (toggle t) / 2, 0, IZR (toggle t))
  ∧ (toggle t = 0%Z ∨ toggle t = 1%Z)
  ∧ breatheBlue t = (0, 0, (1 + sin (t / 1000)) / 2)
  ∧ blinkGreen 500 = (0, 0, 0)
  ∧ blinkGreen 1500 = (0, 1, 0)
  ∧ breatheBlue 0 = (0, 0, 0.5).
Proof.
  intros Ht. unfold blinkGreen, blinkPurple.
  rewrite (intensity_toggle t Ht).
  split_and!; try reflexivity.
  - unfold toggle.
    pose proof (Z.mod_pos_bound (Int_part (t / 1000)) 2). lia.
  - apply blinkGreen_500.
  - apply blinkGreen_1500.
  - rewrite breatheBlue_0. do 2 f_equal. lra.
Qed.

Lemma C6_animation_sampling_witness :
  0 <= 2500
  ∧ blinkGreen 2500 = (0, 0, 0)
  ∧ blinkPurple 2500 = (0 / 2, 0, 0).
Proof.
  assert (Ht : 0 <= 2500) by lra.
  destruct (C6_animation_sampling 2500 Ht) as (Hg & Hp & _).
  assert (Htoggle : toggle 2500 = 0%Z).
  { unfold toggle. fold (Math_floor (2500 / 1000)).
    rewrite (Math_floor_unique _ 2) by (simpl; lra). reflexivity. }
  rewrite Htoggle in Hg, Hp. split_and!; [exact Ht | exact Hg | exact Hp].
Defined.

End Animations.

(** ** Failed drives *)

(** C3: on every call of [updateLeds] a path in both the selected and the
    failed list is in [selectedFailed] and not in [selectedOk]; at step
    [flashing] its LED, if it has one, is not sent the blinking green
    animation and ends solid red. *)
Theorem C3_failed_overrides_selected
    (leds : Leds) (step : Step) (src : option string)
    (avail sel failed : list string) (p : string) :
  p ∈ sel → p ∈ failed →
  let cats := categories leds step src avail sel failed in
  let after := ledsAfter leds step src avail sel failed in
  p ∈ selectedFailed cats
  ∧ (p ∉ selectedOk cats)
  ∧ (step = flashing →
     (IsAnimation blinkGreen ∉ calls_of step avail sel cats p)
     ∧ (is_Some (leds !! p) → indication after p = Some (IsColor red))).
Proof.
  intros Hsel Hfailed cats after.
  assert (Hfa : p ∈ selectedFailed cats).
  { subst cats. by rewrite categories_classify, elem_of_selectedFailed. }
  assert (Hok : p ∉ selectedOk cats).
  { subst cats. rewrite categories_classify, elem_of_selectedOk. tauto. }
  split_and!; [done|done|]. intros ->. split.
  - unfold calls_of. rewrite list_elem_of_fmap. intros (c & Hc & Hin).
    rewrite elem_of_reverse in Hin. subst cats.
    apply elem_of_categories_of in Hin.
    destruct c; simpl in Hc; try discriminate.
    + case_decide; [discriminate|].
      injection Hc as Hc. by apply breatheBlue_not_blinkGreen.
    + done.
  - intros Hreg. subst after. rewrite indication_after by done.
    rewrite last_categories_of. fold cats. by rewrite decide_True.
Qed.

Lemma C3_failed_overrides_selected_witness :
  pB ∈ [pB] ∧ pB ∈ [pB]
  ∧ indication (ledsAfter ledsABC flashing None [] [pB] [pB]) pB
    = Some (IsColor red).
Proof.
  assert (Hin : pB ∈ [pB]) by apply list_elem_of_here.
  split_and!; [exact Hin | exact Hin |].
  apply (C3_failed_overrides_selected ledsABC flashing None [] [pB] [pB] pB
           Hin Hin); [reflexivity|].
  vm_compute; eauto.
Defined.

(** ** Overlapping categories *)

(** C10, as stated, fails in its particular case: a failed, available and
    not selected path that is the source path is taken out of [plugged]. *)
Lemma C10_failed_source_not_plugged :
  let cats := categories ledsABC finish (Some pA) [pA] [] [pA] in
  pA ∈ [pA] ∧ (pA ∉ @nil string) ∧ (pA ∉ plugged cats)
  ∧ categories_of cats pA = [Source; SelectedFailed].
Proof.
  split_and!; [apply list_elem_of_here | apply not_elem_of_nil | | reflexivity].
  vm_compute. apply not_elem_of_nil.
Qed.

(** C10, amended: in one call of [updateLeds] the LED of a registered path
    is sent one indication for each category that holds the path, in the
    order source, unplugged, plugged, selectedOk, selectedFailed, and ends
    with the indication of the last of them. In particular a path that is
    failed and available but not selected is in [selectedFailed], and also
    in [plugged] unless it is the source path; its LED ends with the
    indication of [selectedFailed], red at steps [flashing], [verifying]
    and [finish]. *)
Theorem C10_last_category_wins
    (leds : Leds) (step : Step) (src : option string)
    (avail sel failed : list string) (p : string) (led : RGBLed) :
  leds !! p = Some led →
  let cats := categories leds step src avail sel failed in
  let after := ledsAfter leds step src avail sel failed in
  (received <$> after !! p)
  = Some ((indicationFor step avail sel p <$> reverse (categories_of cats p))
          ++ received led)
  ∧ indication after p
    = indicationFor step avail sel p <$> last (categories_of cats p)
  ∧ (p ∈ failed → p ∈ avail → p ∉ sel →
     p ∈ selectedFailed cats
     ∧ (src ≠ Some p →
        p ∈ plugged cats ∧ categories_of cats p = [Plugged; SelectedFailed])
     ∧ indication after p = Some (stepTable step SelectedFailed)
     ∧ (step ≠ main → indication after p = Some (IsColor red))).
Proof.
  intros Hp cats after.
  assert (Hreg : is_Some (leds !! p)) by eauto.
  split_and!.
  - subst after cats. by rewrite (after_lookup _ _ _ _ _ _ p led).
  - subst after cats. by apply indication_after.
  - intros Hfailed Havail Hsel.
    assert (Hfa : p ∈ selectedFailed cats).
    { subst cats. by rewrite categories_classify, elem_of_selectedFailed. }
    assert (Hind : indication after p = Some (stepTable step SelectedFailed)).
    { subst after. rewrite indication_after by done.
      rewrite last_categories_of. fold cats. by rewrite decide_True. }
    split_and!; [done| |done|].
    + intros Hsrc.
      assert (Hpl : p ∈ plugged cats).
      { subst cats. by rewrite categories_classify, elem_of_plugged. }
      split; [done|]. subst cats. rewrite categories_of_cons.
      revert Hpl Hfa. rewrite categories_classify.
      intros Hpl Hfa.
      rewrite (decide_True _ _ Hpl), (decide_True _ _ Hfa).
      rewrite !decide_False; [done| | |].
      * rewrite elem_of_selectedOk. tauto.
      * rewrite elem_of_unplugged. tauto.
      * rewrite elem_of_source. naive_solver.
    + intros Hstep. rewrite Hind. by destruct step.
Qed.

Lemma C10_last_category_wins_witness :
  ledsABC !! pB = Some (new_RGBLed ("led2_r", "led2_g", "led2_b"))
  ∧ pB ∈ [pB] ∧ pB ∈ [pA; pB] ∧ (pB ∉ @nil string) ∧ Some pA ≠ Some pB
  ∧ (received <$> ledsAfter ledsABC verifying (Some pA) [pA; pB] [] [pB] !! pB)
    = Some [IsColor red; IsColor black]
  ∧ indication (ledsAfter ledsABC verifying (Some pA) [pA; pB] [] [pB]) pB
    = Some (IsColor red).
Proof.
  assert (Hp : ledsABC !! pB = Some (new_RGBLed ("led2_r", "led2_g", "led2_b")))
    by reflexivity.
  assert (Hfailed : pB ∈ [pB]) by apply list_elem_of_here.
  assert (Havail : pB ∈ [pA; pB]) by compute_done.
  assert (Hsel : pB ∉ @nil string) by apply not_elem_of_nil.
  assert (Hsrc : Some pA ≠ Some pB) by discriminate.
  destruct (C10_last_category_wins ledsABC verifying (Some pA) [pA; pB] [] [pB]
              pB _ Hp) as (Hcalls & _ & Hfail).
  destruct (Hfail Hfailed Havail Hsel) as (_ & Hplugged & _ & Hred).
  destruct (Hplugged Hsrc) as [_ Hcats].
  rewrite Hcats in Hcalls.
  split_and!;
    [exact Hp | exact Hfailed | exact Havail | exact Hsel | exact Hsrc
    | exact Hcalls | apply Hred; discriminate].
Defined.

(** ** The step table *)

(** C5: on every call of [updateLeds] the four sets are driven, after the
    source slot, in the order unplugged, plugged, selectedOk,
    selectedFailed, each with its entry of the step table: black for
    unplugged and plugged at every step; white, blinking green, blinking
    purple and green for selectedOk at [main], [flashing], [verifying] and
    [finish]; white at [main] and red at the other steps for
    selectedFailed. The LED of a registered path of one of these sets is
    sent that entry, and shows it when no later set holds the path. With
    step [main], no source and empty lists every registered LED ends
    black. *)
Theorem C5_step_table
    (leds : Leds) (step : Step) (src : option string)
    (avail sel failed : list string) :
  let cats := categories leds step src avail sel failed in
  let after := ledsAfter leds step src avail sel failed in
  (∀ st, stepTable st Unplugged = IsColor black
         ∧ stepTable st Plugged = IsColor black)
  ∧ stepTable main SelectedOk = IsColor white
  ∧ stepTable flashing SelectedOk = IsAnimation blinkGreen
  ∧ stepTable verifying SelectedOk = IsAnimation blinkPurple
  ∧ stepTable finish SelectedOk = IsColor green
  ∧ stepTable main SelectedFailed = IsColor white
  ∧ stepTable flashing SelectedFailed = IsColor red
  ∧ stepTable verifying SelectedFailed = IsColor red
  ∧ stepTable finish SelectedFailed = IsColor red
  ∧ after
    = exec (setLeds (selectedFailed cats) (stepTable step SelectedFailed))
        (exec (setLeds (selectedOk cats) (stepTable step SelectedOk))
           (exec (setLeds (plugged cats) (stepTable step Plugged))
              (exec (setLeds (unplugged cats) (stepTable step Unplugged))
                 (exec (setLeds (source cats)
                          (sourceCall (keys leds) src avail sel)) leds))))
  ∧ (∀ c p led,
       c ≠ Source → p ∈ members c cats → leds !! p = Some led →
       ∃ calls,
         (received <$> after !! p) = Some (calls ++ received led)
         ∧ stepTable step c ∈ calls
         ∧ (last (categories_of cats p) = Some c →
            indication after p = Some (stepTable step c)))
  ∧ (∀ p, is_Some (leds !! p) →
       indication (ledsAfter leds main None [] [] []) p
       = Some (IsColor black)).
Proof.
  intros cats after.
  split; [by intros []|]. do 8 (split; [reflexivity|]). split_and!.
  - subst after cats. rewrite categories_classify. apply ledsAfter_exec.
  - intros c p led Hc Hin Hp.
    exists (calls_of step avail sel cats p). split_and!.
    + subst after cats. by rewrite (after_lookup _ _ _ _ _ _ p led).
    + unfold calls_of. apply list_elem_of_fmap.
      exists c. split; [by destruct c|].
      apply elem_of_reverse. subst cats. by apply elem_of_categories_of.
    + intros Hlast. subst after. rewrite indication_after by eauto.
      fold cats. rewrite Hlast. by destruct c.
  - intros p Hreg. rewrite indication_after by done.
    rewrite last_categories_of.
    set (cats0 := categories leds main None [] [] []).
    assert (Hf : p ∉ selectedFailed cats0).
    { subst cats0. rewrite categories_classify, elem_of_selectedFailed.
      apply not_elem_of_nil. }
    assert (Ho : p ∉ selectedOk cats0).
    { subst cats0. rewrite categories_classify, elem_of_selectedOk.
      intros [[]%elem_of_nil _]. }
    assert (Hs : p ∉ source cats0).
    { subst cats0. rewrite categories_classify, elem_of_source.
      intros [? _]. discriminate. }
    pose proof (registered_classified leds main None [] [] [] p Hreg) as Hcl.
    fold cats0 in Hcl. repeat case_decide; try done. tauto.
Qed.

Lemma C5_step_table_witness :
  SelectedOk ≠ Source
  ∧ pC ∈ selectedOk (categories ledsABC finish None [] [pC] [])
  ∧ ledsABC !! pC = Some (new_RGBLed ("led3_r", "led3_g", "led3_b"))
  ∧ indication (ledsAfter ledsABC finish None [] [pC] []) pC
    = Some (IsColor green)
  ∧ indication (ledsAfter ledsABC main None [] [] []) pC
    = Some (IsColor black).
Proof.
  assert (Hc : SelectedOk ≠ Source) by discriminate.
  assert (Hin : pC ∈ selectedOk (categories ledsABC finish None [] [pC] []))
    by (vm_compute; apply list_elem_of_here).
  assert (Hp : ledsABC !! pC = Some (new_RGBLed ("led3_r", "led3_g", "led3_b")))
    by reflexivity.
  destruct (C5_step_table ledsABC finish None [] [pC] [])
    as (_ & _ & _ & _ & _ & _ & _ & _ & _ & _ & Hsent & _).
  destruct (Hsent SelectedOk pC _ Hc Hin Hp) as (calls & _ & _ & Hshow).
  destruct (C5_step_table ledsABC main None [] [] [])
    as (_ & _ & _ & _ & _ & _ & _ & _ & _ & _ & _ & Hblack).
  split_and!; [exact Hc | exact Hin | exact Hp | | ].
  - apply Hshow. reflexivity.
  - apply Hblack. rewrite Hp. eauto.
Defined.

(** ** Repeating an update *)

Lemma keys_ledsAfter leds step src avail sel failed :
  keys (ledsAfter leds step src avail sel failed) = keys leds.
Proof. unfold keys. by rewrite ledsAfter_dom. Qed.

Lemma keys_dom (leds leds' : Leds) : keys leds' = keys leds → dom leds' = dom leds.
Proof.
  intros Hkeys. apply set_eq. intros p.
  rewrite <- !elem_of_elements. fold (keys leds') (keys leds).
  by rewrite Hkeys.
Qed.

Lemma same_registry leds leds' step src avail sel failed :
  keys leds' = keys leds →
  categories leds' step src avail sel failed
  = categories leds step src avail sel failed
  ∧ ∀ p, indication (ledsAfter leds' step src avail sel failed) p
         = indication (ledsAfter leds step src avail sel failed) p.
Proof.
  intros Hdom%keys_dom.
  assert (Hcats : categories leds' step src avail sel failed
                  = categories leds step src avail sel failed).
  { rewrite !categories_classify. unfold keys. by rewrite Hdom. }
  split; [done|]. intros p.
  assert (Hreg : is_Some (leds' !! p) ↔ is_Some (leds !! p)).
  { by rewrite <- !elem_of_dom, Hdom. }
  destruct (decide (is_Some (leds !! p))) as [Hp|Hp].
  - rewrite (indication_after leds) by done.
    rewrite (indication_after leds') by by apply Hreg.
    by rewrite Hcats.
  - assert (Hp' : ¬ is_Some (leds' !! p)) by by rewrite Hreg.
    apply eq_None_not_Some in Hp, Hp'.
    unfold indication. by rewrite !after_unregistered.
Qed.

(** C9: [updateLeds] is a function of the registered paths and of its
    arguments: on two registries with the same paths, whatever their LEDs
    showed, the same arguments give the same categories and the same
    indication on every path; and a second call with the same arguments
    computes the categories of the first call and leaves every LED with
    the indication the first call gave it. *)
Theorem C9_deterministic_idempotent
    (leds leds' : Leds) (step : Step) (src : option string)
    (avail sel failed : list string) :
  let once := ledsAfter leds step src avail sel failed in
  let twice := ledsAfter once step src avail sel failed in
  (keys leds' = keys leds →
   categories leds' step src avail sel failed
   = categories leds step src avail sel failed
   ∧ ∀ p, indication (ledsAfter leds' step src avail sel failed) p
          = indication once p)
  ∧ categories once step src avail sel failed
    = categories leds step src avail sel failed
  ∧ (∀ p, indication twice p = indication once p).
Proof.
  intros once twice. split; [apply same_registry|].
  apply same_registry. apply keys_ledsAfter.
Qed.

Lemma C9_deterministic_idempotent_witness :
  let lit := ledsAfter ledsABC finish None [pA; pB; pC] [pB; pC] [pC] in
  keys lit = keys ledsABC
  ∧ indication (ledsAfter lit flashing (Some pA) [pA; pB] [pB] []) pB
    = indication (ledsAfter ledsABC flashing (Some pA) [pA; pB] [pB] []) pB.
Proof.
  intros lit.
  assert (Hdom : keys lit = keys ledsABC) by (vm_compute; reflexivity).
  split; [exact Hdom|].
  exact (proj2 (proj1 (C9_deterministic_idempotent
                         ledsABC lit flashing (Some pA) [pA; pB] [pB] [])
                 Hdom) pB).
Defined.

(** ** Paths without an LED *)

Lemma setLed_unregistered c p leds :
  leds !! p = None → exec (setLed c p) leds = leds.
Proof. intros Hp. unfold exec, setLed. by rewrite Hp. Qed.

Lemma setLeds_skip c p s leds :
  leds !! p = None →
  exec (setLeds s c) leds = exec (setLeds (JSSet.delete s p) c) leds.
Proof.
  intros Hp. revert leds Hp. induction s as [|q s IH]; intros leds Hp; [done|].
  unfold JSSet.delete. rewrite filter_cons.
  change (exec (setLeds (q :: s) c) leds)
    with (exec (setLeds s c) (exec (setLed c q) leds)).
  case_decide as Hq.
  - change (exec (setLeds (q :: filter (λ y, y ≠ p) s) c) leds)
      with (exec (setLeds (filter (λ y, y ≠ p) s) c) (exec (setLed c q) leds)).
    apply IH. rewrite setLed_lookup, Hp. done.
  - subst q.
    rewrite (setLed_unregistered c p leds Hp). by apply IH.
Qed.

Lemma setLeds_unregistered c s leds :
  (∀ q, q ∈ s → leds !! q = None) → exec (setLeds s c) leds = leds.
Proof.
  induction s as [|q s IH]; intros Hs; [done|].
  change (exec (setLeds (q :: s) c) leds)
    with (exec (setLeds s c) (exec (setLed c q) leds)).
  rewrite setLed_unregistered by (apply Hs; left).
  apply IH. intros q' Hq'. apply Hs. by right.
Qed.

(** C7: [updateLeds] always returns its classification and a registry,
    there is no error case; a path without a registered LED is skipped: driving it changes nothing, a set is driven
    as the set without that path, a set of such paths leaves the registry
    as it is, and after [setLeds] and after [updateLeds] the registered
    paths are the same and the path still has no LED. *)
Theorem C7_unregistered_paths_skipped
    (leds : Leds) (s : JSSet.t) (c : ColorOrAnimation) (step : Step)
    (src : option string) (avail sel failed : list string) (p : string) :
  leds !! p = None →
  updateLeds step src avail sel failed leds
  = (categories leds step src avail sel failed,
     ledsAfter leds step src avail sel failed)
  ∧ exec (setLed c p) leds = leds
  ∧ exec (setLeds s c) leds = exec (setLeds (JSSet.delete s p) c) leds
  ∧ ((∀ q, q ∈ s → leds !! q = None) → exec (setLeds s c) leds = leds)
  ∧ dom (exec (setLeds s c) leds) = dom leds
  ∧ exec (setLeds s c) leds !! p = None
  ∧ dom (ledsAfter leds step src avail sel failed) = dom leds
  ∧ ledsAfter leds step src avail sel failed !! p = None
  ∧ indication (ledsAfter leds step src avail sel failed) p = None.
Proof.
  intros Hp. split_and!.
  - apply surjective_pairing.
  - by apply setLed_unregistered.
  - by apply setLeds_skip.
  - apply setLeds_unregistered.
  - apply setLeds_dom.
  - apply not_elem_of_dom. rewrite setLeds_dom. by apply not_elem_of_dom.
  - apply ledsAfter_dom.
  - by apply after_unregistered.
  - unfold indication. by rewrite after_unregistered.
Qed.

Lemma C7_unregistered_paths_skipped_witness :
  ledsABC !! pX = None
  ∧ exec (setLeds [pX; pA] (IsColor red)) ledsABC
    = exec (setLeds [pA] (IsColor red)) ledsABC
  ∧ ledsAfter ledsABC flashing (Some pX) [pX] [pX] [pX] !! pX = None.
Proof.
  assert (Hp : ledsABC !! pX = None) by reflexivity.
  destruct (C7_unregistered_paths_skipped ledsABC [pX; pA] (IsColor red)
              flashing (Some pX) [pX] [pX] [pX] pX Hp)
    as (_ & _ & Hskip & _ & _ & _ & _ & Hafter & _).
  split_and!; [exact Hp | exact Hskip | exact Hafter].
Defined.

(** ** The observer *)

Section ObserverFacts.

Variable DriveProperties : Type.
Variable isSourceDrive : DeviceFromState DriveProperties → nat → bool.

(** C4: the observer derives the step [flashing] when the state is
    flashing and the count of devices being written is greater than 0,
    [verifying] when it is flashing and the count is not greater than 0,
    [finish] when it is not flashing and [lastAverageFlashingSpeed] is not
    null, and [main] otherwise. *)
Theorem C4_step_derivation (s : State DriveProperties) :
  let step := arg_step (derive _ isSourceDrive s) in
  (isFlashing _ s = true → (flashState_flashing _ s > 0)%Z → step = flashing)
  ∧ (isFlashing _ s = true → ¬ (flashState_flashing _ s > 0)%Z →
     step = verifying)
  ∧ (isFlashing _ s = false → lastAverageFlashingSpeed _ s ≠ None →
     step = finish)
  ∧ (isFlashing _ s = false → lastAverageFlashingSpeed _ s = None →
     step = main).
Proof.
  simpl. unfold deriveStep. split_and!.
  - intros -> Hpos. apply Z.gtb_gt in Hpos. by rewrite Hpos.
  - intros -> Hnot. destruct (Z.gtb_spec (flashState_flashing _ s) 0); [lia|done].
  - intros -> Hsome. by destruct (lastAverageFlashingSpeed _ s).
  - by intros -> ->.
Qed.

Lemma getDrivesPaths_nil (drives : list (DeviceFromState DriveProperties)) :
  getDrivesPaths _ drives [] = [].
Proof.
  unfold getDrivesPaths.
  replace (filter (λ d, device _ d ∈ []) drives) with (@nil (DeviceFromState DriveProperties)); [done|].
  induction drives as [|d drives IH]; [done|].
  rewrite filter_cons. rewrite decide_False by apply not_elem_of_nil. done.
Qed.

Lemma selectedFailed_updateLeds leds step src avail sel failed :
  selectedFailed (fst (updateLeds step src avail sel failed leds))
  = JSSet.new failed.
Proof.
  fold (categories leds step src avail sel failed).
  rewrite categories_classify. unfold classify. by repeat case_match.
Qed.

(** C8: when the state has no flash results, or they have no [results], or
    these have no [errors], the observer derives an empty list of failed
    drives and an empty list of failed paths, and [updateLeds] computes an
    empty [selectedFailed]. *)
Theorem C8_missing_errors (s : State DriveProperties) (leds : Leds) :
  flashResults _ s = None
  ∨ (∃ fr, flashResults _ s = Some fr
      ∧ (results fr = None
         ∨ ∃ r, results fr = Some r ∧ errors r = None)) →
  failedDrives _ s = []
  ∧ arg_failedDrivesPaths (derive _ isSourceDrive s) = []
  ∧ selectedFailed (fst (onState _ isSourceDrive s leds)) = [].
Proof.
  intros Hmissing.
  assert (Hfailed : failedDrives _ s = []).
  { unfold failedDrives.
    destruct Hmissing as [->|(fr & -> & [->|(r & -> & ->)])]; done. }
  assert (Hpaths : arg_failedDrivesPaths (derive _ isSourceDrive s) = []).
  { simpl. rewrite Hfailed. apply getDrivesPaths_nil. }
  split_and!; [done|done|].
  unfold onState. rewrite selectedFailed_updateLeds, Hpaths. done.
Qed.

End ObserverFacts.

Lemma C4_step_derivation_witness :
  isFlashing _ state_verifying = true
  ∧ ¬ (flashState_flashing _ state_verifying > 0)%Z
  ∧ arg_step (derive unit no_source state_verifying) = verifying.
Proof.
  assert (Hflag : isFlashing _ state_verifying = true) by reflexivity.
  assert (Hcount : ¬ (flashState_flashing _ state_verifying > 0)%Z)
    by (simpl; lia).
  split_and!; [exact Hflag | exact Hcount |].
  exact (proj1 (proj2 (C4_step_derivation unit no_source state_verifying))
           Hflag Hcount).
Defined.

Lemma C8_missing_errors_witness :
  (∃ fr, flashResults _ state_verifying = Some fr
     ∧ (results fr = None ∨ ∃ r, results fr = Some r ∧ errors r = None))
  ∧ arg_failedDrivesPaths (derive unit no_source state_verifying) = []
  ∧ selectedFailed (fst (onState unit no_source state_verifying ledsABC)) = [].
Proof.
  assert (Hmissing :
    ∃ fr, flashResults _ state_verifying = Some fr
      ∧ (results fr = None ∨ ∃ r, results fr = Some r ∧ errors r = None)).
  { exists (mkFlashResults (Some (mkResults None))). split; [reflexivity|].
    right. exists (mkResults None). split; reflexivity. }
  split; [exact Hmissing|].
  exact (proj2 (C8_missing_errors unit no_source state_verifying ledsABC
                  (or_intror Hmissing))).
Defined.

(** * Further properties of the code *)

(** ** [setLeds] *)

(** X1: [setLeds] on a set (no path twice) sends its colour or animation
    exactly once to the LED of every path of the set that has one, on top
    of what the LED received before and without touching its channel
    names, and leaves every other LED as it was. *)
Theorem setLeds_drives_each_once
    (s : JSSet.t) (c : ColorOrAnimation) (leds : Leds) (p : string) :
  NoDup s →
  exec (setLeds s c) leds !! p
  = if decide (p ∈ s)
    then (λ led, mkRGBLed (ledsNames led) (c :: received led)) <$> leds !! p
    else leds !! p.
Proof.
  intros Hs. rewrite setLeds_lookup by done. unfold when.
  case_decide; [done|].
  destruct (leds !! p); simpl; by rewrite ?record_calls_nil.
Qed.

Lemma setLeds_drives_each_once_witness :
  NoDup [pB; pA]
  ∧ exec (setLeds [pB; pA] (IsColor green)) ledsABC !! pA
    = Some (mkRGBLed ("led1_r", "led1_g", "led1_b") [IsColor green])
  ∧ exec (setLeds [pB; pA] (IsColor green)) ledsABC !! pC = ledsABC !! pC.
Proof.
  assert (Hs : NoDup [pB; pA]) by compute_done.
  split; [exact Hs|]. split.
  - exact (setLeds_drives_each_once [pB; pA] (IsColor green) ledsABC pA Hs).
  - exact (setLeds_drives_each_once [pB; pA] (IsColor green) ledsABC pC Hs).
Defined.

Lemma setLed_comm c p q leds :
  exec (setLed c p) (exec (setLed c q) leds)
  = exec (setLed c q) (exec (setLed c p) leds).
Proof.
  apply map_eq. intros r. rewrite !setLed_lookup, !record_calls_fmap.
  do 2 f_equal. unfold when. repeat case_decide; done.
Qed.

Lemma setLeds_cons c p s leds :
  exec (setLeds (p :: s) c) leds = exec (setLeds s c) (exec (setLed c p) leds).
Proof. reflexivity. Qed.

(** X2: the registry after [setLeds] does not depend on the order in which
    the loop of line 29 visits the paths. *)
Theorem setLeds_order_irrelevant
    (s s' : list string) (c : ColorOrAnimation) (leds : Leds) :
  s ≡ₚ s' → exec (setLeds s c) leds = exec (setLeds s' c) leds.
Proof.
  intros Hperm. revert leds.
  induction Hperm as [|p s s' _ IH|p q s|s1 s2 s3 _ IH1 _ IH2]; intros leds.
  - done.
  - rewrite !setLeds_cons. apply IH.
  - rewrite !setLeds_cons. by rewrite setLed_comm.
  - by rewrite IH1.
Qed.

Lemma setLeds_order_irrelevant_witness :
  [pA; pB; pX] ≡ₚ [pX; pB; pA]
  ∧ exec (setLeds [pA; pB; pX] (IsAnimation blinkGreen)) ledsABC
    = exec (setLeds [pX; pB; pA] (IsAnimation blinkGreen)) ledsABC.
Proof.
  assert (Hperm : [pA; pB; pX] ≡ₚ [pX; pB; pA]) by compute_done.
  split; [exact Hperm|].
  exact (setLeds_order_irrelevant _ _ (IsAnimation blinkGreen) ledsABC Hperm).
Defined.

(** ** [updateLeds] as a function of its arguments *)

Section UpdateFacts.

Variable leds : Leds.
Variable step : Step.
Variable src : option string.
Variables avail sel failed : list string.

Local Abbreviation cats := (categories leds step src avail sel failed).
Local Abbreviation after := (ledsAfter leds step src avail sel failed).

(** The categories of a path, decided on the arguments. *)
Lemma categories_of_arguments p :
  categories_of cats p
  = (if decide (src = Some p ∧ (is_Some (leds !! p) ∨ p ∈ avail ∧ p ∉ sel))
     then [Source] else [])
    ++ (if decide (is_Some (leds !! p) ∧ ¬ (p ∈ avail ∧ p ∉ sel)
                   ∧ src ≠ Some p)
        then [Unplugged] else [])
    ++ (if decide ((p ∈ avail ∧ p ∉ sel) ∧ src ≠ Some p)
        then [Plugged] else [])
    ++ (if decide (p ∈ sel ∧ p ∉ failed) then [SelectedOk] else [])
    ++ (if decide (p ∈ failed) then [SelectedFailed] else []).
Proof.
  rewrite categories_of_cons, categories_classify.
  rewrite (decide_ext _ _ _ _ (elem_of_source leds src avail sel failed p)).
  rewrite (decide_ext _ _ _ _ (elem_of_unplugged leds src avail sel failed p)).
  rewrite (decide_ext _ _ _ _ (elem_of_plugged leds src avail sel failed p)).
  rewrite (decide_ext _ _ _ _ (elem_of_selectedOk leds src avail sel failed p)).
  rewrite (decide_ext _ _ _ _
             (elem_of_selectedFailed leds src avail sel failed p)).
  reflexivity.
Qed.

End UpdateFacts.

Lemma indication_finalIndication leds step src avail sel failed p :
  is_Some (leds !! p) →
  indication (ledsAfter leds step src avail sel failed) p
  = Some (finalIndication step src avail sel failed p).
Proof.
  intros Hreg. rewrite indication_after by done.
  rewrite categories_of_arguments. unfold finalIndication.
  destruct (decide (p ∈ failed)), (decide (p ∈ sel)), (decide (p ∈ avail)),
    (decide (src = Some p));
    repeat (case_decide; try tauto); simpl;
    try (rewrite decide_True by tauto); try (rewrite decide_False by tauto);
    by destruct step.
Qed.

(** X3: after [updateLeds] the LED of every registered path shows: the
    failed entry of the step (white at [main], red otherwise) if the path
    is in the failed list; else the selected entry (white, blinking green,
    blinking purple, green) if it is in the selected list; else, if it is
    the source path, solid blue when available and breathing blue when
    not; else black. *)
Theorem updateLeds_final_indication
    (leds : Leds) (step : Step) (src : option string)
    (avail sel failed : list string) (p : string) :
  is_Some (leds !! p) →
  indication (ledsAfter leds step src avail sel failed) p
  = Some (finalIndication step src avail sel failed p).
Proof. apply indication_finalIndication. Qed.

Lemma updateLeds_final_indication_witness :
  is_Some (ledsABC !! pA)
  ∧ indication (ledsAfter ledsABC verifying (Some pC) [pA; pC] [pA] []) pA
    = Some (IsAnimation blinkPurple).
Proof.
  assert (Hreg : is_Some (ledsABC !! pA)) by (vm_compute; eauto).
  split; [exact Hreg|].
  exact (updateLeds_final_indication
           ledsABC verifying (Some pC) [pA; pC] [pA] [] pA Hreg).
Defined.

(** X4: one call of [updateLeds] drives every registered LED once or
    twice: it keeps the channel names and what the LED received before,
    and puts on top one call, or two when the path is in the selected or
    in the failed list. *)
Theorem updateLeds_drives_once_or_twice
    (leds : Leds) (step : Step) (src : option string)
    (avail sel failed : list string) (p : string) (led : RGBLed) :
  leds !! p = Some led →
  ∃ calls,
    ledsAfter leds step src avail sel failed !! p
    = Some (mkRGBLed (ledsNames led) (calls ++ received led))
    ∧ length calls = (if decide (p ∈ sel ∨ p ∈ failed) then 2 else 1).
Proof.
  intros Hp.
  exists (calls_of step avail sel
            (categories leds step src avail sel failed) p).
  split; [by apply after_lookup|].
  unfold calls_of. rewrite length_fmap, length_reverse.
  rewrite categories_of_arguments.
  assert (Hreg : is_Some (leds !! p)) by eauto.
  destruct (decide (p ∈ failed)), (decide (p ∈ sel)), (decide (p ∈ avail)),
    (decide (src = Some p));
    repeat (case_decide; try tauto); simpl; try done; tauto.
Qed.

Lemma updateLeds_drives_once_or_twice_witness :
  ledsABC !! pB = Some (new_RGBLed ("led2_r", "led2_g", "led2_b"))
  ∧ ∃ calls,
      ledsAfter ledsABC finish (Some pB) [pB] [pB] [] !! pB
      = Some (mkRGBLed ("led2_r", "led2_g", "led2_b") (calls ++ []))
      ∧ length calls = 2.
Proof.
  assert (Hp : ledsABC !! pB = Some (new_RGBLed ("led2_r", "led2_g", "led2_b")))
    by reflexivity.
  split; [exact Hp|].
  exact (updateLeds_drives_once_or_twice
           ledsABC finish (Some pB) [pB] [pB] [] pB _ Hp).
Defined.

Lemma calls_of_arguments leds step src avail sel failed avail' sel' failed' p :
  (∀ q, q ∈ avail ↔ q ∈ avail') →
  (∀ q, q ∈ sel ↔ q ∈ sel') →
  (∀ q, q ∈ failed ↔ q ∈ failed') →
  calls_of step avail sel (categories leds step src avail sel failed) p
  = calls_of step avail' sel' (categories leds step src avail' sel' failed') p.
Proof.
  intros Ha Hs Hf. unfold calls_of. rewrite !categories_of_arguments.
  assert (Hidle : (p ∈ avail ∧ p ∉ sel) ↔ (p ∈ avail' ∧ p ∉ sel'))
    by (rewrite (Ha p), (Hs p); tauto).
  assert (Hind : ∀ c, indicationFor step avail sel p c
                      = indicationFor step avail' sel' p c).
  { intros []; simpl; try done. by apply decide_ext. }
  rewrite (decide_ext (src = Some p ∧ (is_Some (leds !! p) ∨ p ∈ avail ∧ p ∉ sel))
             (src = Some p ∧ (is_Some (leds !! p) ∨ p ∈ avail' ∧ p ∉ sel')))
    by tauto.
  rewrite (decide_ext (is_Some (leds !! p) ∧ ¬ (p ∈ avail ∧ p ∉ sel)
                       ∧ src ≠ Some p)
             (is_Some (leds !! p) ∧ ¬ (p ∈ avail' ∧ p ∉ sel')
              ∧ src ≠ Some p)) by tauto.
  rewrite (decide_ext ((p ∈ avail ∧ p ∉ sel) ∧ src ≠ Some p)
             ((p ∈ avail' ∧ p ∉ sel') ∧ src ≠ Some p)) by tauto.
  rewrite (decide_ext (p ∈ sel ∧ p ∉ failed) (p ∈ sel' ∧ p ∉ failed'))
    by (rewrite (Hs p), (Hf p); tauto).
  rewrite (decide_ext (p ∈ failed) (p ∈ failed')) by apply Hf.
  apply list_fmap_ext. intros _ c _. apply Hind.
Qed.

(** X5: [updateLeds] reads its three lists as sets: lists with the same
    members, in any order and with any repetition, leave the same
    registry. *)
Theorem updateLeds_lists_as_sets
    (leds : Leds) (step : Step) (src : option string)
    (avail sel failed avail' sel' failed' : list string) :
  (∀ q, q ∈ avail ↔ q ∈ avail') →
  (∀ q, q ∈ sel ↔ q ∈ sel') →
  (∀ q, q ∈ failed ↔ q ∈ failed') →
  ledsAfter leds step src avail sel failed
  = ledsAfter leds step src avail' sel' failed'.
Proof.
  intros Ha Hs Hf. apply map_eq. intros p. rewrite !ledsAfter_lookup.
  by rewrite (calls_of_arguments leds step src avail sel failed
                avail' sel' failed' p).
Qed.

Lemma updateLeds_lists_as_sets_witness :
  ledsAfter ledsABC flashing (Some pA) [pA; pB] [pB; pC] [pC]
  = ledsAfter ledsABC flashing (Some pA) [pB; pA; pB] [pC; pB] [pC; pC].
Proof.
  apply (updateLeds_lists_as_sets ledsABC flashing (Some pA));
    intros q; rewrite !elem_of_cons, !elem_of_nil; tauto.
Defined.

(** X6: a source path without a registered LED changes nothing: the
    registry after [updateLeds] is the one obtained with no source. *)
Theorem updateLeds_unregistered_source
    (leds : Leds) (step : Step) (s : string)
    (avail sel failed : list string) :
  leds !! s = None →
  ledsAfter leds step (Some s) avail sel failed
  = ledsAfter leds step None avail sel failed.
Proof.
  intros Hs. apply map_eq. intros p. rewrite !ledsAfter_lookup.
  destruct (decide (s = p)) as [->|Hne]; [by rewrite Hs|].
  do 2 f_equal. unfold calls_of. rewrite !categories_of_arguments.
  assert (Hsp : Some s ≠ Some p) by (intros [= ?]; done).
  assert (Hnp : @None string ≠ Some p) by done.
  destruct (decide (p ∈ avail)), (decide (p ∈ sel)),
    (decide (is_Some (leds !! p)));
    repeat (case_decide; try tauto); reflexivity.
Qed.

Lemma updateLeds_unregistered_source_witness :
  ledsABC !! pX = None
  ∧ ledsAfter ledsABC main (Some pX) [pX; pA] [pB] []
    = ledsAfter ledsABC main None [pX; pA] [pB] [].
Proof.
  assert (Hs : ledsABC !! pX = None) by reflexivity.
  split; [exact Hs|].
  exact (updateLeds_unregistered_source ledsABC main pX [pX; pA] [pB] [] Hs).
Defined.

(** ** The registry built by [init] *)

Lemma init_leds_snoc mapping entry :
  init_leds (mapping ++ [entry]) = register (init_leds mapping) entry.
Proof. unfold init_leds. by rewrite foldl_snoc. Qed.

Lemma init_leds_lookup_Some mapping p led :
  init_leds mapping !! p = Some led →
  ∃ k names, (k, names) ∈ mapping
    ∧ p = "/dev/disk/by-path/" +:+ k ∧ led = new_RGBLed names.
Proof.
  induction mapping as [|[k names] mapping IH] using rev_ind; [done|].
  rewrite init_leds_snoc. unfold register at 1. simpl.
  destruct (decide ("/dev/disk/by-path/" +:+ k = p)) as [<-|Hne].
  - rewrite lookup_insert_eq. intros [= <-].
    exists k, names. split_and!; [|done|done].
    apply elem_of_app. right. apply list_elem_of_here.
  - rewrite lookup_insert_ne by done. intros (k' & names' & Hin & ? & ?)%IH.
    exists k', names'. split_and!; [|done|done].
    apply elem_of_app. by left.
Qed.

Lemma init_leds_lookup_entry mapping k names :
  NoDup mapping.*1 → (k, names) ∈ mapping →
  init_leds mapping !! ("/dev/disk/by-path/" +:+ k) = Some (new_RGBLed names).
Proof.
  induction mapping as [|[k' names'] mapping IH] using rev_ind;
    [by intros _ ?%elem_of_nil|].
  rewrite fmap_app, NoDup_app. simpl. intros (Hnd & Hfresh & _).
  rewrite elem_of_app, list_elem_of_singleton.
  rewrite init_leds_snoc. unfold register at 1. simpl. intros [Hin|[= -> ->]].
  - assert (k ≠ k') as Hne.
    { intros ->. apply (Hfresh k'); [|apply list_elem_of_here].
      apply list_elem_of_fmap. by exists (k', names). }
    rewrite lookup_insert_ne; [by apply IH|].
    intros Heq. apply Hne. symmetry.
    by apply (inj (String.app "/dev/disk/by-path/")).
  - by rewrite lookup_insert_eq.
Qed.

(** X7: the registry that [init] builds from the [ledsMapping] setting has
    exactly the paths ["/dev/disk/by-path/" + key] of the setting; each is
    a fresh LED built from channel names of that key, which received no
    call and shows nothing; with distinct keys the LED of a key is the one
    built from the names of that key; an empty setting gives an empty
    registry. *)
Theorem init_registers_by_path
    (ledsMapping : list (string * (string * string * string))) :
  (∀ p, is_Some (init_leds ledsMapping !! p)
        ↔ ∃ k, k ∈ ledsMapping.*1 ∧ p = "/dev/disk/by-path/" +:+ k)
  ∧ (∀ p led, init_leds ledsMapping !! p = Some led →
       received led = []
       ∧ indication (init_leds ledsMapping) p = None
       ∧ ∃ k names, (k, names) ∈ ledsMapping
           ∧ p = "/dev/disk/by-path/" +:+ k ∧ ledsNames led = names)
  ∧ (NoDup ledsMapping.*1 →
     ∀ k names, (k, names) ∈ ledsMapping →
       init_leds ledsMapping !! ("/dev/disk/by-path/" +:+ k)
       = Some (new_RGBLed names))
  ∧ init_leds [] = ∅.
Proof.
  split_and!;
    [| |intros Hnd k names; by apply init_leds_lookup_entry|done].
  - intros p. split.
    + intros [led (k & names & Hin & -> & _)%init_leds_lookup_Some].
      exists k. split; [|done]. apply list_elem_of_fmap. by exists (k, names).
    + intros (k & Hk & ->). clear -Hk.
      induction ledsMapping as [|[k' names'] mapping IH] using rev_ind;
        [by apply elem_of_nil in Hk|].
      rewrite init_leds_snoc. unfold register at 1. simpl.
      destruct (decide (k' = k)) as [->|Hne].
      * rewrite lookup_insert_eq. eauto.
      * rewrite lookup_insert_ne.
        -- apply IH. rewrite fmap_app, elem_of_app in Hk.
           destruct Hk as [Hk|Hk%list_elem_of_singleton]; [done|].
           simpl in Hk. congruence.
        -- intros Heq. apply Hne.
           by apply (inj (String.app "/dev/disk/by-path/")).
  - intros p led Hp.
    pose proof (init_leds_lookup_Some _ _ _ Hp) as (k & names & Hin & -> & ->).
    split_and!; [done| |by exists k, names].
    unfold indication. by rewrite Hp.
Qed.

Lemma init_registers_by_path_witness :
  NoDup mappingAB.*1
  ∧ ("B", ("led2_r", "led2_g", "led2_b")) ∈ mappingAB
  ∧ init_leds mappingAB !! pB
    = Some (new_RGBLed ("led2_r", "led2_g", "led2_b")).
Proof.
  assert (Hnd : NoDup mappingAB.*1) by compute_done.
  assert (Hin : ("B", ("led2_r", "led2_g", "led2_b")) ∈ mappingAB)
    by compute_done.
  split_and!; [exact Hnd | exact Hin |].
  exact (proj1 (proj2 (proj2 (init_registers_by_path mappingAB)))
           Hnd "B" _ Hin).
Defined.

(** ** What the observer derives from the state *)

Lemma elem_of_filter_from {A} (f : A → nat → bool) i l x :
  x ∈ filter_from f i l → x ∈ l ∧ ∃ j, f x j = true.
Proof.
  revert i. induction l as [|y l IH]; intros i; simpl; [by intros ?%elem_of_nil|].
  destruct (f y i) eqn:E.
  - rewrite elem_of_cons. intros [->|Hin].
    + split; [apply list_elem_of_here|eauto].
    + destruct (IH _ Hin) as [? ?]. split; [by apply list_elem_of_further|done].
  - intros Hin. destruct (IH _ Hin) as [? ?].
    split; [by apply list_elem_of_further|done].
Qed.

Lemma truthy_Some o : truthy o = true ↔ ∃ p, o = Some p ∧ p ≠ "".
Proof.
  destruct o as [[|a p]|]; simpl; split; try done.
  - intros (p & [= <-] & ?). done.
  - intros _. by eexists.
  - intros (? & ? & ?). done.
Qed.

Section DerivedArguments.

Variable DriveProperties : Type.
Variable isSourceDrive : DeviceFromState DriveProperties → nat → bool.
Variable s : State DriveProperties.

Local Abbreviation args := (derive _ isSourceDrive s).

Lemma elem_of_getDrivesPaths (drives : list string) p :
  p ∈ getDrivesPaths _
        (filter (λ d, truthy (devicePath _ d) = true) (availableDrives _ s))
        drives
  ↔ p ≠ "" ∧ ∃ d, d ∈ availableDrives _ s ∧ devicePath _ d = Some p
                  ∧ device _ d ∈ drives.
Proof.
  unfold getDrivesPaths, devicePaths. rewrite list_elem_of_omap. split.
  - intros (d & [Hdev [Htruthy Hd]%list_elem_of_filter]%list_elem_of_filter
              & Hp).
    apply truthy_Some in Htruthy as (p' & Hp' & Hne).
    assert (p' = p) as -> by congruence. split; [done|]. by exists d.
  - intros (Hne & d & Hd & Hp & Hdev). exists d. split; [|done].
    rewrite !list_elem_of_filter. split_and!; [done| |done].
    apply truthy_Some. by exists p.
Qed.

Lemma elem_of_availableDrivesPaths p :
  p ∈ arg_availableDrivesPaths args
  ↔ p ≠ "" ∧ ∃ d, d ∈ availableDrives _ s ∧ devicePath _ d = Some p.
Proof.
  simpl. unfold devicePaths. rewrite list_elem_of_omap. split.
  - intros (d & [Htruthy Hd]%list_elem_of_filter & Hp).
    apply truthy_Some in Htruthy as (p' & Hp' & Hne).
    assert (p' = p) as -> by congruence. split; [done|]. by exists d.
  - intros (Hne & d & Hd & Hp). exists d. split; [|done].
    rewrite list_elem_of_filter. split; [|done].
    apply truthy_Some. by exists p.
Qed.

Lemma sourceDrivePath_available p :
  arg_sourceDrivePath args = Some p →
  p ∈ arg_availableDrivesPaths args
  ∧ ∃ d i, d ∈ availableDrives _ s ∧ devicePath _ d = Some p
           ∧ isSourceDrive d i = true.
Proof.
  simpl. unfold js_filter.
  destruct (filter_from _ _ _) as [|d l] eqn:E; simpl; [done|].
  intros Hp.
  assert (Hd : d ∈ filter_from isSourceDrive 0
                 (filter (λ d, truthy (devicePath _ d) = true)
                    (availableDrives _ s)))
    by (rewrite E; apply list_elem_of_here).
  apply elem_of_filter_from in Hd as [[Htruthy Hd]%list_elem_of_filter [i Hi]].
  split.
  - apply elem_of_availableDrivesPaths.
    apply truthy_Some in Htruthy as (p' & Hp' & Hne).
    assert (p' = p) as -> by congruence. split; [done|]. by exists d.
  - by exists d, i.
Qed.

Lemma selectedDrivesPaths_available p :
  p ∈ arg_selectedDrivesPaths args → p ∈ arg_availableDrivesPaths args.
Proof.
  simpl. rewrite elem_of_getDrivesPaths, elem_of_availableDrivesPaths.
  intros (? & d & ? & ? & ?). eauto.
Qed.

Lemma failedDrivesPaths_available p :
  p ∈ arg_failedDrivesPaths args → p ∈ arg_availableDrivesPaths args.
Proof.
  simpl. rewrite elem_of_getDrivesPaths, elem_of_availableDrivesPaths.
  intros (? & d & ? & ? & ?). eauto.
Qed.

(** X8: the available paths that the observer passes to [updateLeds] are
    the resolved, non-empty device paths of the available drives: a drive
    whose [devicePath] is undefined or the empty string adds nothing. *)
Theorem observer_available_paths (p : string) :
  p ∈ arg_availableDrivesPaths (derive _ isSourceDrive s)
  ↔ p ≠ "" ∧ ∃ d, d ∈ availableDrives _ s ∧ devicePath _ d = Some p.
Proof. apply elem_of_availableDrivesPaths. Qed.

(** X9: the selected (failed) paths that the observer passes are the
    non-empty paths of the available drives whose [device] is in the
    selection (is the device of an error of the flash results); every one
    of them is an available path, and a selected or failed device that is
    not an available drive with a path adds nothing. *)
Theorem observer_selected_failed_paths (p : string) :
  (p ∈ arg_selectedDrivesPaths (derive _ isSourceDrive s)
   ↔ p ≠ "" ∧ ∃ d, d ∈ availableDrives _ s ∧ devicePath _ d = Some p
                   ∧ device _ d ∈ selection_devices _ s)
  ∧ (p ∈ arg_failedDrivesPaths (derive _ isSourceDrive s)
     ↔ p ≠ "" ∧ ∃ d, d ∈ availableDrives _ s ∧ devicePath _ d = Some p
                     ∧ device _ d ∈ failedDrives _ s)
  ∧ (p ∈ arg_selectedDrivesPaths (derive _ isSourceDrive s) →
     p ∈ arg_availableDrivesPaths (derive _ isSourceDrive s))
  ∧ (p ∈ arg_failedDrivesPaths (derive _ isSourceDrive s) →
     p ∈ arg_availableDrivesPaths (derive _ isSourceDrive s)).
Proof.
  split_and!; [apply elem_of_getDrivesPaths | apply elem_of_getDrivesPaths | |].
  - apply selectedDrivesPaths_available.
  - apply failedDrivesPaths_available.
Qed.

(** X10: the source path that the observer passes, when there is one, is
    one of the available paths it passes, the path of an available drive
    that [isSourceDrive] accepted. *)
Theorem observer_source_is_available (p : string) :
  arg_sourceDrivePath (derive _ isSourceDrive s) = Some p →
  p ∈ arg_availableDrivesPaths (derive _ isSourceDrive s)
  ∧ ∃ d i, d ∈ availableDrives _ s ∧ devicePath _ d = Some p
           ∧ isSourceDrive d i = true.
Proof. apply sourceDrivePath_available. Qed.

(** X11: driven by the observer, no LED is left breathing blue: the source
    path is always an available path, so the LED of a registered source
    slot ends solid blue, or with the entry of the step table when the
    drive is also selected or failed. *)
Theorem observer_never_leaves_breathing (leds : Leds) (p : string) :
  is_Some (leds !! p) →
  let after := exec (onState _ isSourceDrive s) leds in
  indication after p ≠ Some (IsAnimation breatheBlue)
  ∧ (arg_sourceDrivePath (derive _ isSourceDrive s) = Some p →
     (p ∉ arg_selectedDrivesPaths (derive _ isSourceDrive s)) →
     (p ∉ arg_failedDrivesPaths (derive _ isSourceDrive s)) →
     indication after p = Some (IsColor blue)).
Proof.
  intros Hreg after. subst after. unfold onState.
  change (exec (updateLeds ?st ?sr ?a ?se ?f) leds)
    with (ledsAfter leds st sr a se f).
  rewrite indication_finalIndication by done. unfold finalIndication.
  split.
  - destruct (decide (p ∈ arg_failedDrivesPaths args));
      [by destruct (arg_step args)|].
    destruct (decide (p ∈ arg_selectedDrivesPaths args)).
    { destruct (arg_step args); intros [= Heq]; try done.
      - by apply breatheBlue_not_blinkGreen.
      - by apply breatheBlue_not_blinkPurple. }
    destruct (decide (arg_sourceDrivePath args = Some p)) as [Hsrc|]; [|done].
    rewrite decide_True; [done|].
    by destruct (sourceDrivePath_available p Hsrc).
  - intros Hsrc Hsel Hfailed.
    rewrite decide_False by done. rewrite decide_False by done.
    rewrite decide_True by done.
    rewrite decide_True; [done|].
    by destruct (sourceDrivePath_available p Hsrc).
Qed.

(** X12: driven by the observer, the LED of a registered slot that has no
    available drive ends black at every step, whatever the selection and
    the flash results say. *)
Theorem observer_empty_slot_black (leds : Leds) (p : string) :
  is_Some (leds !! p) →
  (∀ d, d ∈ availableDrives _ s → devicePath _ d ≠ Some p) →
  indication (exec (onState _ isSourceDrive s) leds) p = Some (IsColor black).
Proof.
  intros Hreg Hnone. unfold onState.
  change (exec (updateLeds ?st ?sr ?a ?se ?f) leds)
    with (ledsAfter leds st sr a se f).
  assert (Havail : p ∉ arg_availableDrivesPaths args).
  { rewrite elem_of_availableDrivesPaths. intros (_ & d & Hd & Hp).
    by apply (Hnone d). }
  rewrite indication_finalIndication by done. unfold finalIndication.
  rewrite decide_False
    by (intros Hin; by apply Havail, failedDrivesPaths_available).
  rewrite decide_False
    by (intros Hin; by apply Havail, selectedDrivesPaths_available).
  rewrite decide_False; [done|].
  intros Hsrc. apply Havail. by destruct (sourceDrivePath_available p Hsrc).
Qed.

End DerivedArguments.

Lemma observer_selected_failed_paths_witness :
  pB ∈ arg_failedDrivesPaths (derive unit first_is_source state_flashing)
  ∧ pB ∈ arg_availableDrivesPaths (derive unit first_is_source state_flashing).
Proof.
  assert (Hfailed :
    pB ∈ arg_failedDrivesPaths (derive unit first_is_source state_flashing))
    by (vm_compute; apply list_elem_of_here).
  split; [exact Hfailed|].
  exact (proj2 (proj2 (proj2
    (observer_selected_failed_paths unit first_is_source state_flashing pB)))
      Hfailed).
Defined.

Lemma observer_source_is_available_witness :
  arg_sourceDrivePath (derive unit first_is_source state_flashing) = Some pA
  ∧ pA ∈ arg_availableDrivesPaths (derive unit first_is_source state_flashing).
Proof.
  assert (Hsrc :
    arg_sourceDrivePath (derive unit first_is_source state_flashing) = Some pA)
    by reflexivity.
  split; [exact Hsrc|].
  exact (proj1 (observer_source_is_available
                  unit first_is_source state_flashing pA Hsrc)).
Defined.

Lemma observer_never_leaves_breathing_witness :
  is_Some (ledsABC !! pA)
  ∧ arg_sourceDrivePath (derive unit first_is_source state_done) = Some pA
  ∧ (pA ∉ arg_selectedDrivesPaths (derive unit first_is_source state_done))
  ∧ (pA ∉ arg_failedDrivesPaths (derive unit first_is_source state_done))
  ∧ indication (exec (onState unit first_is_source state_done) ledsABC) pA
    = Some (IsColor blue).
Proof.
  assert (Hreg : is_Some (ledsABC !! pA)) by (vm_compute; eauto).
  assert (Hsrc :
    arg_sourceDrivePath (derive unit first_is_source state_done) = Some pA)
    by reflexivity.
  assert (Hsel :
    pA ∉ arg_selectedDrivesPaths (derive unit first_is_source state_done))
    by compute_done.
  assert (Hfailed :
    pA ∉ arg_failedDrivesPaths (derive unit first_is_source state_done))
    by compute_done.
  split_and!; [exact Hreg | exact Hsrc | exact Hsel | exact Hfailed |].
  exact (proj2 (observer_never_leaves_breathing
                  unit first_is_source state_done ledsABC pA Hreg)
           Hsrc Hsel Hfailed).
Defined.

Lemma observer_empty_slot_black_witness :
  is_Some (ledsABC !! pC)
  ∧ (∀ d, d ∈ availableDrives _ state_flashing → devicePath _ d ≠ Some pC)
  ∧ indication (exec (onState unit first_is_source state_flashing) ledsABC) pC
    = Some (IsColor black).
Proof.
  assert (Hreg : is_Some (ledsABC !! pC)) by (vm_compute; eauto).
  assert (Hnone :
    ∀ d, d ∈ availableDrives _ state_flashing → devicePath _ d ≠ Some pC).
  { intros d Hd. simpl in Hd.
    repeat (apply elem_of_cons in Hd as [->|Hd]; [simpl; discriminate|]).
    by apply elem_of_nil in Hd. }
  split_and!; [exact Hreg | exact Hnone |].
  exact (observer_empty_slot_black
           unit first_is_source state_flashing ledsABC pC Hreg Hnone).
Defined.

(** ** The animations over time *)

Section AnimationsOverTime.
Local Open Scope R_scope.

Lemma Math_floor_bounds (x : R) :
  IZR (Math_floor x) <= x < IZR (Math_floor x) + 1.
Proof.
  unfold Math_floor. destruct (base_Int_part x) as [Hle Hgt]. lra.
Qed.

Lemma Math_floor_shift (x : R) (k : Z) :
  Math_floor (x + IZR k) = (Math_floor x + k)%Z.
Proof.
  apply Math_floor_unique. rewrite plus_IZR.
  pose proof (Math_floor_bounds x). lra.
Qed.

Lemma blink_intensity_periodic (t : R) :
  0 <= t →
  js_rem (Math_floor ((t + 2000) / 1000)) 2 = js_rem (Math_floor (t / 1000)) 2.
Proof.
  intros Ht.
  replace ((t + 2000) / 1000) with (t / 1000 + IZR 2) by (simpl; lra).
  rewrite Math_floor_shift. unfold js_rem.
  assert (0 <= Math_floor (t / 1000))%Z by (apply Math_floor_nonneg; lra).
  rewrite !Z.rem_mod_nonneg by lia.
  replace (Math_floor (t / 1000) + 2)%Z
    with (Math_floor (t / 1000) + 1 * 2)%Z by lia.
  apply Z.mod_add. lia.
Qed.

(** X13: [breatheBlue] gives, at every time, a colour with no red and no
    green and a blue intensity between 0 and 1, and repeats with period
    [2000 * PI] milliseconds. *)
Theorem breatheBlue_range_and_period (t : R) :
  (∃ b, breatheBlue t = (0, 0, b) ∧ 0 <= b <= 1)
  ∧ breatheBlue (t + 2000 * PI) = breatheBlue t.
Proof.
  split.
  - exists ((1 + sin (t / 1000)) / 2). split; [reflexivity|].
    pose proof (SIN_bound (t / 1000)). lra.
  - unfold breatheBlue.
    replace ((t + 2000 * PI) / 1000) with (t / 1000 + 2 * PI) by lra.
    by rewrite sin_plus, sin_2PI, cos_2PI, Rmult_1_r, Rmult_0_r, Rplus_0_r.
Qed.

(** X14: from time 0 on, the two blinking animations are off during the
    first second, on during the second one ([blinkGreen] full green,
    [blinkPurple] half red and full blue), and repeat every 2000
    milliseconds. *)
Theorem blink_off_on_periodic (t : R) :
  0 <= t →
  (t < 1000 → blinkGreen t = (0, 0, 0) ∧ blinkPurple t = (0 / 2, 0, 0))
  ∧ (1000 <= t < 2000 →
     blinkGreen t = (0, 1, 0) ∧ blinkPurple t = (1 / 2, 0, 1))
  ∧ blinkGreen (t + 2000) = blinkGreen t
  ∧ blinkPurple (t + 2000) = blinkPurple t.
Proof.
  intros Ht. unfold blinkGreen, blinkPurple. split_and!.
  - intros Hlt. rewrite (Math_floor_unique _ 0) by (simpl; lra). done.
  - intros Hin. rewrite (Math_floor_unique _ 1) by (simpl; lra). done.
  - by rewrite blink_intensity_periodic.
  - by rewrite blink_intensity_periodic.
Qed.

Lemma blink_off_on_periodic_witness :
  0 <= 1200 ∧ 1000 <= 1200 < 2000
  ∧ blinkGreen 1200 = (0, 1, 0)
  ∧ blinkPurple (1200 + 2000) = blinkPurple 1200.
Proof.
  assert (Ht : 0 <= 1200) by lra.
  assert (Hin : 1000 <= 1200 < 2000) by lra.
  destruct (blink_off_on_periodic 1200 Ht) as (_ & Hon & _ & Hperiod).
  split; [exact Ht|]. split; [exact Hin|].
  split; [exact (proj1 (Hon Hin)) | exact Hperiod].
Defined.

(** X15: during the second before time 0 the remainder of [%] is -1: the
    blinking animations give intensities outside of the range from 0 to 1,
    [(0, -1, 0)] and [(-1/2, 0, -1)]. *)
Theorem blink_before_origin (t : R) :
  -1000 <= t < 0 →
  blinkGreen t = (0, -1, 0) ∧ blinkPurple t = (-1 / 2, 0, -1).
Proof.
  intros Ht. unfold blinkGreen, blinkPurple.
  rewrite (Math_floor_unique _ (-1)) by (simpl; lra). done.
Qed.

Lemma blink_before_origin_witness :
  -1000 <= -250 < 0 ∧ blinkGreen (-250) = (0, -1, 0).
Proof.
  assert (Ht : -1000 <= -250 < 0) by lra.
  split; [exact Ht|]. exact (proj1 (blink_before_origin (-250) Ht)).
Defined.

End AnimationsOverTime.

(** ** The LEDs of the targets, driven by the observer *)

Section ObservedTargets.

Variable DriveProperties : Type.
Variable isSourceDrive : DeviceFromState DriveProperties → nat → bool.

(** X16: driven by the observer, the LED of a registered slot whose drive
    is in the errors of the flash results ends red while flashing or
    verifying and after a run, and white on the main screen, whether the
    drive is still selected or not; the LED of a selected drive without
    error ends white, blinking green, blinking purple or green, by the
    step. *)
Theorem observer_target_indication
    (s : State DriveProperties) (leds : Leds) (p : string)
    (d : DeviceFromState DriveProperties) :
  is_Some (leds !! p) →
  d ∈ availableDrives _ s → devicePath _ d = Some p → p ≠ "" →
  let args := derive _ isSourceDrive s in
  let after := exec (onState _ isSourceDrive s) leds in
  (device _ d ∈ failedDrives _ s →
   indication after p
   = Some (match arg_step args with
           | main => IsColor white
           | flashing | verifying | finish => IsColor red
           end))
  ∧ (device _ d ∈ selection_devices _ s → (p ∉ arg_failedDrivesPaths args) →
     indication after p
     = Some (match arg_step args with
             | main => IsColor white
             | flashing => IsAnimation blinkGreen
             | verifying => IsAnimation blinkPurple
             | finish => IsColor green
             end)).
Proof.
  intros Hreg Hd Hp Hne args after. subst after. unfold onState. fold args.
  change (exec (updateLeds ?st ?sr ?a ?se ?f) leds)
    with (ledsAfter leds st sr a se f).
  rewrite indication_finalIndication by done. unfold finalIndication.
  split.
  - intros Hfailed. rewrite decide_True; [done|].
    subst args. simpl. apply elem_of_getDrivesPaths. split; [done|].
    by exists d.
  - intros Hsel Hok. rewrite decide_False by done.
    rewrite decide_True; [done|].
    subst args. simpl. apply elem_of_getDrivesPaths. split; [done|].
    by exists d.
Qed.

End ObservedTargets.

Lemma observer_target_indication_witness :
  is_Some (ledsABC !! pB)
  ∧ mkDevice unit (Some pB) "/dev/sdd" tt ∈ availableDrives _ state_flashing
  ∧ pB ≠ ""
  ∧ "/dev/sdd" ∈ failedDrives _ state_flashing
  ∧ indication (exec (onState unit first_is_source state_flashing) ledsABC) pB
    = Some (IsColor red).
Proof.
  assert (Hreg : is_Some (ledsABC !! pB)) by (vm_compute; eauto).
  assert (Hd : mkDevice unit (Some pB) "/dev/sdd" tt
               ∈ availableDrives _ state_flashing).
  { simpl. do 3 apply list_elem_of_further. apply list_elem_of_here. }
  assert (Hne : pB ≠ "") by discriminate.
  assert (Hfailed : "/dev/sdd" ∈ failedDrives _ state_flashing)
    by (vm_compute; apply list_elem_of_here).
  split_and!; [exact Hreg | exact Hd | exact Hne | exact Hfailed |].
  exact (proj1 (observer_target_indication unit first_is_source
                  state_flashing ledsABC pB _ Hreg Hd eq_refl Hne)
           Hfailed).
Defined.

(** ** The step and the other slots *)

(** X17: the step only matters for the targets: the sets that
    [updateLeds] computes are the same at every step, and the LED of a
    registered path that is neither selected nor failed ends with the same
    indication at every step. *)
Theorem updateLeds_step_only_for_targets
    (leds : Leds) (step step' : Step) (src : option string)
    (avail sel failed : list string) (p : string) :
  categories leds step src avail sel failed
  = categories leds step' src avail sel failed
  ∧ (is_Some (leds !! p) → (p ∉ sel) → (p ∉ failed) →
     indication (ledsAfter leds step src avail sel failed) p
     = indication (ledsAfter leds step' src avail sel failed) p).
Proof.
  split; [by rewrite !categories_classify|].
  intros Hreg Hsel Hfailed.
  rewrite !indication_finalIndication by done. unfold finalIndication.
  rewrite !(decide_False (P := p ∈ failed)) by done.
  rewrite !(decide_False (P := p ∈ sel)) by done. reflexivity.
Qed.

Lemma updateLeds_step_only_for_targets_witness :
  is_Some (ledsABC !! pC) ∧ (pC ∉ [pB]) ∧ (pC ∉ [pA])
  ∧ indication (ledsAfter ledsABC main (Some pC) [pB] [pB] [pA]) pC
    = indication (ledsAfter ledsABC finish (Some pC) [pB] [pB] [pA]) pC.
Proof.
  assert (Hreg : is_Some (ledsABC !! pC)) by (vm_compute; eauto).
  assert (Hsel : pC ∉ [pB]) by compute_done.
  assert (Hfailed : pC ∉ [pA]) by compute_done.
  split_and!; [exact Hreg | exact Hsel | exact Hfailed |].
  exact (proj2 (updateLeds_step_only_for_targets
                  ledsABC main finish (Some pC) [pB] [pB] [pA] pC)
           Hreg Hsel Hfailed).
Defined.
